(** * Motion reel gallery: playback controller, time formatting, row layout

    A shallow embedding of the three versions of [MotionReelSection]: the
    reel section of [components/motion-reel-section.tsx] (module
    [MotionReel]) and the two gallery versions of the component, one whose
    card has a desktop and a mobile [<video>] (module [GalleryA]) and one
    whose card has a single [<video>] (module [GalleryB]).  The definitions
    come first, the facts about them after.

    JavaScript numbers are IEEE-754 binary64 values; they are embedded as
    Rocq's primitive floats, whose operations are those of the hardware
    ([/], [*], [-], [<]).  The operations JavaScript adds on top ([||] on a
    number, [%], [Math.floor], [Math.min], [Math.max], the number-to-string
    conversion of a template literal) are written out below over the
    sign/mantissa/exponent view [Prim2SF]. *)

From Stdlib Require Import Floats ZArith QArith Qround String Ascii List Bool.
From Stdlib Require Import Lia Lqa Setoid.
From stdpp Require Import base list.
From Equations Require Import Equations.
Import ListNotations.

Local Open Scope float_scope.

(** ** JavaScript number operations *)

Module JS.

(** [ToBoolean] on a number: [+0], [-0] and [NaN] are falsy. *)
Definition truthy (x : float) : bool := negb (is_zero x || is_nan x).

(** [x || y] on numbers. *)
Definition or (x y : float) : float := if truthy x then x else y.

(** [Math.floor]: the largest integer not above [x]; [NaN], the infinities,
    the zeros and every value that is already an integer are returned as
    they are. *)
Definition Math_floor (x : float) : float :=
  match Prim2SF x with
  | S754_finite s m e =>
      if (0 <=? e)%Z then x
      else SF2Prim (binary_normalize prec emax
                      (Z.shiftr (cond_Zopp s (Zpos m)) (- e)) 0 s)
  | _ => x
  end.

(** [x % y]: the remainder of the truncating division, with the sign of the
    dividend.  The result is always representable, so the final
    normalisation never rounds. *)
Definition rem (x y : float) : float :=
  match Prim2SF x, Prim2SF y with
  | S754_nan, _ | _, S754_nan => nan
  | S754_infinity _, _ => nan
  | _, S754_zero _ => nan
  | _, S754_infinity _ => x
  | S754_zero _, _ => x
  | S754_finite sx mx ex, S754_finite _ my ey =>
      let e := Z.min ex ey in
      let r := Z.rem (Zpos mx * 2 ^ (ex - e)) (Zpos my * 2 ^ (ey - e)) in
      SF2Prim (binary_normalize prec emax (cond_Zopp sx r) e sx)
  end.

(** [Math.min] and [Math.max] of two numbers: [NaN] if either is [NaN], and
    [-0] counts as smaller than [+0]. *)
Definition Math_min (a b : float) : float :=
  if is_nan a || is_nan b then nan
  else if a <? b then a
  else if b <? a then b
  else if get_sign a then a else b.

Definition Math_max (a b : float) : float :=
  if is_nan a || is_nan b then nan
  else if b <? a then a
  else if a <? b then b
  else if get_sign a then b else a.

(** The number whose value is the integer [n] (exact below [2^53]). *)
Definition of_Z (n : Z) : float :=
  SF2Prim (binary_normalize prec emax n 0 false).

(** *** Number::toString (radix 10) *)

Local Open Scope string_scope.

Definition digit (d : Z) : ascii := ascii_of_nat (48 + Z.to_nat d).

Fixpoint digits_fuel (fuel : nat) (n : Z) (acc : string) : string :=
  match fuel with
  | O => acc
  | S fuel' =>
      let acc' := String (digit (n mod 10)) acc in
      if (n <? 10)%Z then acc' else digits_fuel fuel' (n / 10) acc'
  end.

(** The decimal digits of a non-negative integer; the fuel, one more than
    the number of its binary digits, is never used up. *)
Definition decimal (n : Z) : string :=
  digits_fuel (S (Z.to_nat (Z.log2 n))) n EmptyString.

Fixpoint zeros (n : nat) : string :=
  match n with O => EmptyString | S n' => String "0"%char (zeros n') end.

Definition pow10 (n : Z) : Q :=
  if (0 <=? n)%Z then inject_Z (10 ^ n) else / inject_Z (10 ^ (- n)).

(** The exact value, and the open interval of reals that round to it, of
    the positive finite number with mantissa [m] and exponent [e]; the
    interval's end points round to it too when [m] is even. *)
Definition exact (m : positive) (e : Z) : Q :=
  if (0 <=? e)%Z then inject_Z (Zpos m * 2 ^ e)
  else inject_Z (Zpos m) / inject_Z (2 ^ (- e)).

Definition lower_half_gap (m : positive) (e : Z) : Q :=
  if ((Zpos m =? 2 ^ 52) && (-1074 <? e))%Z
  then exact 1 (e - 2) else exact 1 (e - 1).

Definition rounds_to (m : positive) (e : Z) (x : Q) : bool :=
  let v := exact m e in
  let lo := (v - lower_half_gap m e)%Q in
  let hi := (v + exact 1 (e - 1))%Q in
  if Z.even (Zpos m)
  then Qle_bool lo x && Qle_bool x hi
  else negb (Qle_bool x lo) && negb (Qle_bool hi x).

(** The [n] with [10^(n-1) <= v < 10^n]; a binary64 value has its [n]
    between -323 and 309, within the 400 steps either way. *)
Fixpoint magnitude_up (fuel : nat) (v : Q) (n : Z) : Z :=
  match fuel with
  | O => n
  | S fuel' => if Qle_bool (pow10 n) v then magnitude_up fuel' v (n + 1) else n
  end.

Fixpoint magnitude_down (fuel : nat) (v : Q) (n : Z) : Z :=
  match fuel with
  | O => n
  | S fuel' =>
      if Qle_bool (pow10 (n - 1)) v then n else magnitude_down fuel' v (n - 1)
  end.

Definition magnitude (v : Q) : Z :=
  magnitude_down 400 v (magnitude_up 400 v 0).

(** The candidates with [k] digits next to [v]: [s] and [s + 1] where
    [s = floor (v / 10^(n-k))].  Of those that round to [v] the closest is
    taken, the even one on a tie. *)
Definition candidate (m : positive) (e : Z) (n k : Z) : option (Z * Z) :=
  let v := exact m e in
  let p := pow10 (n - k) in
  let s := Qfloor (v / p) in
  let ok1 := rounds_to m e (inject_Z s * p) in
  let ok2 := rounds_to m e (inject_Z (s + 1) * p) in
  let d1 := (v - inject_Z s * p)%Q in
  let d2 := (inject_Z (s + 1) * p - v)%Q in
  let up := if (s + 1 =? 10 ^ k)%Z then (10 ^ (k - 1), n + 1)%Z else (s + 1, n)%Z in
  match ok1, ok2 with
  | false, false => None
  | true, false => Some (s, n)
  | false, true => Some up
  | true, true =>
      if Qle_bool d1 d2 && negb (Qle_bool d2 d1) then Some (s, n)
      else if Qle_bool d2 d1 && negb (Qle_bool d1 d2) then Some up
      else if Z.even s then Some (s, n) else Some up
  end.

(** The shortest digit string: the least [k] with a candidate.  Seventeen
    digits always identify a binary64 value. *)
Fixpoint shortest (fuel : nat) (m : positive) (e : Z) (n k : Z) : Z * Z * Z :=
  match fuel with
  | O => (Zpos m, n, k)
  | S fuel' =>
      match candidate m e n k with
      | Some (s, n') => (s, n', k)
      | None => shortest fuel' m e n (k + 1)
      end
  end.

Definition render (s n k : Z) : string :=
  let ds := decimal s in
  if ((-5 <=? n) && (n <=? 21))%Z then
    if (k <=? n)%Z then ds ++ zeros (Z.to_nat (n - k))
    else if (0 <? n)%Z then
      substring 0 (Z.to_nat n) ds ++ "." ++ substring (Z.to_nat n) (Z.to_nat (k - n)) ds
    else "0." ++ zeros (Z.to_nat (- n)) ++ ds
  else
    let c := (n - 1)%Z in
    let ex := (if (c <? 0)%Z then "e-" else "e+") ++ decimal (Z.abs c) in
    if (k =? 1)%Z then ds ++ ex
    else substring 0 1 ds ++ "." ++ substring 1 (Z.to_nat (k - 1)) ds ++ ex.

(** What a template literal [`${x}`] prints for a number. *)
Definition Number_toString (x : float) : string :=
  match Prim2SF x with
  | S754_nan => "NaN"
  | S754_zero _ => "0"
  | S754_infinity s => if s then "-Infinity" else "Infinity"
  | S754_finite sg m e =>
      let '(s, n, k) := shortest 17 m e (magnitude (exact m e)) 1 in
      (if sg then "-" else "") ++ render s n k
  end.

End JS.

(** ** The host: media elements, promises, the console *)

(** How the promise returned by [video.play()] settles: the host decides
    (an autoplay policy rejects with [NotAllowedError]). *)
Inductive settled :=
| Fulfilled
| Rejected (reason : string).

(** What a handler does to the world outside the component's state, in
    program order: the calls and assignments it makes on its media element,
    what it writes to the console, a rejection nobody handles, an exception
    that leaves the handler. *)
Inductive effect :=
| video_play
| video_pause
| video_load
| video_set_muted (b : bool)
| video_set_currentTime (t : float)
| console_error (reason : string)
| unhandled_rejection (reason : string)
| uncaught_TypeError.

Module Video.

(** The attributes of an [HTMLVideoElement] the component reads or writes.
    [duration] is [NaN] until the metadata has loaded. *)
Record t := mk {
  paused : bool;
  muted : bool;
  currentTime : float;
  duration : float
}.

(** [video.play()]: a fulfilled promise means playback was allowed and the
    element is no longer paused; a rejected one leaves it as it was. *)
Definition play (o : settled) (v : t) : t :=
  match o with
  | Fulfilled => mk false (muted v) (currentTime v) (duration v)
  | Rejected _ => v
  end.

(** [video.pause()]. *)
Definition pause (v : t) : t := mk true (muted v) (currentTime v) (duration v).

(** [video.muted = b]. *)
Definition set_muted (b : bool) (v : t) : t :=
  mk (paused v) b (currentTime v) (duration v).

(** [video.currentTime = x].  The attribute is a Web IDL [double]: the
    assignment of [NaN] or an infinity throws a [TypeError] ([None]).  A
    finite value is stored as given (the host's own clamping of a seek to
    the seekable range is not part of the component and is not modelled;
    the assigned value is recorded in the handler's effects). *)
Definition set_currentTime (x : float) (v : t) : option t :=
  if is_finite x then Some (mk (paused v) (muted v) x (duration v)) else None.

End Video.

(** ** Input data *)

Record Reel := mkReel {
  id : option string;
  title : string;
  reel : string;
  description : option string
}.

(** The [data] prop: [null], one item, or an array of items. *)
Inductive Data :=
| Null
| Single (r : Reel)
| Many (rs : list Reel).

(** [Array.isArray(data) ? data : data ? [data] : []] (an object is truthy),
    as the reel section and the two-element gallery write it. *)
Definition normalize (data : Data) : list Reel :=
  match data with
  | Many rs => rs
  | Single r => [r]
  | Null => []
  end.

(** [data ? (Array.isArray(data) ? data : [data]) : []], as the
    single-element gallery writes it. *)
Definition normalize' (data : Data) : list Reel :=
  match data with
  | Null => []
  | Many rs => rs
  | Single r => [r]
  end.

(** [(reel.id || reel.title) + index]: an absent or empty [id] is falsy. *)
Definition card_key (r : Reel) (index : nat) : string :=
  let name := match id r with
              | Some s => if String.eqb s "" then title r else s
              | None => title r
              end in
  (name ++ JS.decimal (Z.of_nat index))%string.

(** ** Row layout *)

Module Layout.

(** Modelled from the spec: the repeating row sizes.  The module
    [@/lib/chunk] that [motion-reel-section.tsx] imports is not among the
    sources; the sizes are the specification's example "3 then 2", which is
    also what the section's render gives its rows (three columns for an even
    row index, two for an odd one). *)
Definition pattern : list nat := [3; 2]%nat.

(** Row [i] takes [pattern[i % pattern.length]] items. *)
Definition rowSize (i : nat) : nat :=
  nth (i mod length pattern) pattern 0%nat.

(** Modelled from the spec: [chunkByPattern] of [@/lib/chunk], which is not
    among the sources.  "Consume items greedily in original order; row i
    takes pattern[i % pattern.length] items, or fewer for the final row if
    input is exhausted.  An empty input yields zero rows."  [chunkFrom i]
    lays out the rows from row index [i] on; the recursion ends because a
    row takes at least one item. *)
Equations? chunkFrom {A : Type} (i : nat) (items : list A) : list (list A)
  by wf (length items) lt :=
  chunkFrom i [] := [];
  chunkFrom i (x :: xs) :=
    take (rowSize i) (x :: xs) :: chunkFrom (S i) (drop (rowSize i) (x :: xs)).
Proof.
  rewrite length_drop. cbn [length].
  assert (0 < rowSize i)%nat; [|lia].
  unfold rowSize; cbn [pattern length].
  pose proof (Nat.mod_upper_bound i 2 ltac:(lia)) as Hlt.
  remember (i mod 2)%nat as r eqn:Hr; clear Hr.
  destruct r as [|[|r]]; cbn; lia.
Qed.

Definition chunkByPattern {A : Type} (items : list A) : list (list A) :=
  chunkFrom 0 items.

(** The index in the input of the first item of row [i]. *)
Fixpoint rowStart (i : nat) : nat :=
  match i with
  | O => O
  | S j => (rowStart j + rowSize j)%nat
  end.

End Layout.

(** ** [components/motion-reel-section.tsx] *)

Module MotionReel.

(** The [useState] cells of [Card]. *)
Record state := mkState {
  playing : bool;
  muted : bool;
  progress : float;
  showDescription : bool
}.

Definition initial : state := mkState false true 0 false.

(** A card: its state and [videoRef.current] ([None] is [null]). *)
Record card := mkCard {
  ui : state;
  videoRef : option Video.t
}.

Definition setPlaying (b : bool) (s : state) : state :=
  mkState b (muted s) (progress s) (showDescription s).
Definition setMuted (b : bool) (s : state) : state :=
  mkState (playing s) b (progress s) (showDescription s).
Definition setProgress (x : float) (s : state) : state :=
  mkState (playing s) (muted s) x (showDescription s).
Definition setShowDescription (b : bool) (s : state) : state :=
  mkState (playing s) (muted s) (progress s) b.

(** [togglePlay]: the promise of [play()] is dropped, so a rejection has no
    handler. *)
Definition togglePlay (o : settled) (c : card) : card * list effect :=
  match videoRef c with
  | None => (c, [])
  | Some v =>
      if Video.paused v then
        (mkCard (ui c) (Some (Video.play o v)),
         video_play :: match o with
                       | Fulfilled => []
                       | Rejected r => [unhandled_rejection r]
                       end)
      else (mkCard (ui c) (Some (Video.pause v)), [video_pause])
  end.

(** [toggleMute]: flips the element's flag, then reads it back. *)
Definition toggleMute (c : card) : card * list effect :=
  match videoRef c with
  | None => (c, [])
  | Some v =>
      let v' := Video.set_muted (negb (Video.muted v)) v in
      (mkCard (setMuted (Video.muted v') (ui c)) (Some v'),
       [video_set_muted (negb (Video.muted v))])
  end.

(** [handleProgress]. *)
Definition handleProgress (c : card) : card :=
  match videoRef c with
  | None => c
  | Some v =>
      let current := Video.currentTime v in
      let duration := JS.or (Video.duration v) 1 in
      mkCard (setProgress (current / duration) (ui c)) (videoRef c)
  end.

(** [handleSeek]; [value] is [parseFloat(e.target.value)].  When the
    assignment to [currentTime] throws, [setProgress] is not reached. *)
Definition handleSeek (value : float) (c : card) : card * list effect :=
  match videoRef c with
  | None => (c, [])
  | Some v =>
      let target := value * Video.duration v in
      match Video.set_currentTime target v with
      | None => (c, [video_set_currentTime target; uncaught_TypeError])
      | Some v' =>
          (mkCard (setProgress value (ui c)) (Some v'),
           [video_set_currentTime target])
      end
  end.

(** The user's gestures on a card. *)
Inductive command :=
| TogglePlay (o : settled)
| ToggleMute
| Seek (value : float)
| ToggleDescription.

Definition run (cmd : command) (c : card) : card * list effect :=
  match cmd with
  | TogglePlay o => togglePlay o c
  | ToggleMute => toggleMute c
  | Seek value => handleSeek value c
  | ToggleDescription =>
      (mkCard (setShowDescription (negb (showDescription (ui c))) (ui c))
              (videoRef c), [])
  end.

(** The listeners the effect registers on the element: [play], [pause] and
    [timeupdate].  The element's other events have no listener. *)
Inductive event :=
| Play
| Pause
| TimeUpdate
| LoadedMetadata
| CanPlay
| Error.

Definition on (e : event) (c : card) : card :=
  match e with
  | Play => mkCard (setPlaying true (ui c)) (videoRef c)
  | Pause => mkCard (setPlaying false (ui c)) (videoRef c)
  | TimeUpdate => handleProgress c
  | LoadedMetadata | CanPlay | Error => c
  end.

(** What the section renders: the heading and the rows; a row with an even
    index is a portrait row (three columns). *)
Record row := mkRow {
  isPortraitRow : bool;
  cards : list (string * Reel)
}.

Fixpoint keyed (i : nat) (rs : list Reel) : list (string * Reel) :=
  match rs with
  | [] => []
  | r :: rs' => (card_key r i, r) :: keyed (S i) rs'
  end.

Fixpoint rows_from (rowIndex : nat) (rows : list (list Reel)) : list row :=
  match rows with
  | [] => []
  | r :: rows' =>
      mkRow (Nat.eqb (rowIndex mod 2) 0) (keyed 0 r) :: rows_from (S rowIndex) rows'
  end.

Inductive view :=
| Section_ (heading : string) (rows : list row).

Definition render (data : Data) : view :=
  let videos := normalize data in
  let rows := Layout.chunkByPattern videos in
  Section_ "Edited Videos & Motion Graphics" (rows_from 0 rows).


End MotionReel.

(** ** The gallery versions *)

(** [getBoundingClientRect()] of the progress bar. *)
Record DOMRect := mkRect {
  left : float;
  width : float
}.

(** What a gallery card shows where its video goes. *)
Inductive surface :=
| VideoSurface
| FailedToLoad.

(** What a gallery section renders. *)
Inductive gallery_view (K : Type) :=
| NoVideos
| Gallery (cards : list (K * Reel)).
Arguments NoVideos {K}.
Arguments Gallery {K} cards.


(** The [useState] cells of [MotionReelCard], the same in both versions. *)
Record gallery_state := mkGalleryState {
  isPlaying : bool;
  progress : float;
  duration : float;
  currentTime : float;
  isMuted : bool;
  showControls : bool;
  isLoading : bool;
  hasError : bool
}.

Definition gallery_initial : gallery_state :=
  mkGalleryState false 0 0 0 false false true false.

Definition setIsPlaying (b : bool) (s : gallery_state) : gallery_state :=
  mkGalleryState b (progress s) (duration s) (currentTime s) (isMuted s)
    (showControls s) (isLoading s) (hasError s).
Definition setProgress (x : float) (s : gallery_state) : gallery_state :=
  mkGalleryState (isPlaying s) x (duration s) (currentTime s) (isMuted s)
    (showControls s) (isLoading s) (hasError s).
Definition setDuration (x : float) (s : gallery_state) : gallery_state :=
  mkGalleryState (isPlaying s) (progress s) x (currentTime s) (isMuted s)
    (showControls s) (isLoading s) (hasError s).
Definition setCurrentTime (x : float) (s : gallery_state) : gallery_state :=
  mkGalleryState (isPlaying s) (progress s) (duration s) x (isMuted s)
    (showControls s) (isLoading s) (hasError s).
Definition setIsMuted (b : bool) (s : gallery_state) : gallery_state :=
  mkGalleryState (isPlaying s) (progress s) (duration s) (currentTime s) b
    (showControls s) (isLoading s) (hasError s).
Definition setShowControls (b : bool) (s : gallery_state) : gallery_state :=
  mkGalleryState (isPlaying s) (progress s) (duration s) (currentTime s)
    (isMuted s) b (isLoading s) (hasError s).
Definition setIsLoading (b : bool) (s : gallery_state) : gallery_state :=
  mkGalleryState (isPlaying s) (progress s) (duration s) (currentTime s)
    (isMuted s) (showControls s) b (hasError s).
Definition setHasError (b : bool) (s : gallery_state) : gallery_state :=
  mkGalleryState (isPlaying s) (progress s) (duration s) (currentTime s)
    (isMuted s) (showControls s) (isLoading s) b.


(** [formatTime], the same in both versions. *)
Definition formatTime (time : float) : string :=
  let minutes := JS.Math_floor (time / 60) in
  let seconds := JS.Math_floor (JS.rem time 60) in
  let pad := if seconds <? 10 then "0"%string else ""%string in
  (JS.Number_toString minutes ++ ":" ++ pad ++ JS.Number_toString seconds)%string.

(** The format the specification asks of [formatTime], for a whole number
    of seconds: the minutes as they are, a colon, the seconds as two digits. *)
Definition two_digits (k : Z) : string :=
  String (JS.digit (k / 10)) (String (JS.digit (k mod 10)) EmptyString).

Definition M_SS (n : Z) : string :=
  (JS.decimal (n / 60) ++ ":" ++ two_digits (n mod 60))%string.

(** [Math.max(0, Math.min(1, (e.clientX - rect.left) / rect.width))]. *)
Definition click_position (clientX : float) (rect : DOMRect) : float :=
  JS.Math_max 0 (JS.Math_min 1 ((clientX - left rect) / width rect)).

(** The user's gestures on a gallery card. *)
Inductive gallery_command :=
| TogglePlay (o : settled)
| ToggleMute
| ProgressClick (clientX : float)
| MouseEnter
| MouseLeave.

(** The media events a gallery card listens to. *)
Inductive gallery_event :=
| Play
| Pause
| TimeUpdate
| LoadedMetadata
| CanPlay
| Error.

(** *** The gallery card with a desktop and a mobile element *)

Module GalleryA.

(** A card: its state, its two [<video>] elements and the progress bar.  A
    ref is non-null while its element is mounted; the element objects
    themselves outlive their unmounting, because the listeners registered
    on them close over them. *)
Record card := mkCard {
  ui : gallery_state;
  desktop : Video.t;
  desktopMounted : bool;
  mobile : Video.t;
  mobileMounted : bool;
  progressRef : option DOMRect
}.

Definition desktopVideoRef (c : card) : option Video.t :=
  if desktopMounted c then Some (desktop c) else None.
Definition mobileVideoRef (c : card) : option Video.t :=
  if mobileMounted c then Some (mobile c) else None.

Inductive which := Desktop | Mobile.

(** [desktopVideoRef.current || mobileVideoRef.current]. *)
Definition current (c : card) : option (which * Video.t) :=
  match desktopVideoRef c with
  | Some v => Some (Desktop, v)
  | None => match mobileVideoRef c with
            | Some v => Some (Mobile, v)
            | None => None
            end
  end.

Definition with_ui (s : gallery_state) (c : card) : card :=
  mkCard s (desktop c) (desktopMounted c) (mobile c) (mobileMounted c)
    (progressRef c).

(** The element [w] after a call or an assignment on it. *)
Definition with_video (w : which) (v : Video.t) (c : card) : card :=
  match w with
  | Desktop => mkCard (ui c) v (desktopMounted c) (mobile c) (mobileMounted c)
                 (progressRef c)
  | Mobile => mkCard (ui c) (desktop c) (desktopMounted c) v (mobileMounted c)
                (progressRef c)
  end.

Definition handleTimeUpdate (c : card) : card :=
  match current c with
  | None => c
  | Some (_, video) =>
      let s := setCurrentTime (Video.currentTime video) (ui c) in
      with_ui (setProgress
                 (Video.currentTime video / JS.or (Video.duration video) 1 * 100)
                 s) c
  end.

(** [togglePlay]: [video.play().catch(console.error)]. *)
Definition togglePlay (o : settled) (c : card) : card * list effect :=
  match current c with
  | None => (c, [])
  | Some (w, video) =>
      if Video.paused video then
        (with_video w (Video.play o video) c,
         video_play :: match o with
                       | Fulfilled => []
                       | Rejected r => [console_error r]
                       end)
      else (with_video w (Video.pause video) c, [video_pause])
  end.

Definition toggleMute (c : card) : card * list effect :=
  match current c with
  | None => (c, [])
  | Some (w, video) =>
      let video' := Video.set_muted (negb (Video.muted video)) video in
      (with_ui (setIsMuted (Video.muted video') (ui c)) (with_video w video' c),
       [video_set_muted (negb (Video.muted video))])
  end.

Definition handleProgressClick (clientX : float) (c : card) : card * list effect :=
  match progressRef c, current c with
  | Some rect, Some (w, video) =>
      let pos := click_position clientX rect in
      let target := pos * Video.duration video in
      match Video.set_currentTime target video with
      | None => (c, [video_set_currentTime target; uncaught_TypeError])
      | Some video' => (with_video w video' c, [video_set_currentTime target])
      end
  | _, _ => (c, [])
  end.

Definition run (cmd : gallery_command) (c : card) : card * list effect :=
  match cmd with
  | TogglePlay o => togglePlay o c
  | ToggleMute => toggleMute c
  | ProgressClick x => handleProgressClick x c
  | MouseEnter => (with_ui (setShowControls true (ui c)) c, [])
  | MouseLeave => (with_ui (setShowControls false (ui c)) c, [])
  end.

(** The render that follows a state change: the desktop [<video>] is only
    rendered while [hasError] is false, the mobile one always. *)
Definition commit (c : card) : card :=
  if hasError (ui c)
  then mkCard (ui c) (desktop c) false (mobile c) (mobileMounted c) (progressRef c)
  else c.

(** The listeners.  The effect registers [play], [pause], [timeupdate],
    [loadedmetadata] and [error] once, after the first render, on
    [desktopVideoRef.current || mobileVideoRef.current], which is then the
    desktop element; [handleLoadedMetadata] reads that element.  [canplay]
    is the [onCanPlay] prop of both elements: it is delivered while one of
    them is rendered. *)
Definition on (e : gallery_event) (c : card) : card :=
  commit
    match e with
    | Play => with_ui (setIsPlaying true (ui c)) c
    | Pause => with_ui (setIsPlaying false (ui c)) c
    | TimeUpdate => handleTimeUpdate c
    | LoadedMetadata => with_ui (setDuration (Video.duration (desktop c)) (ui c)) c
    | CanPlay =>
        if desktopMounted c || mobileMounted c
        then with_ui (setIsLoading false (ui c)) c
        else c
    | Error => with_ui (setHasError true (ui c)) c
    end.

(** A card after its first render. *)
Definition mounted (v : Video.t) (rect : DOMRect) : card :=
  mkCard gallery_initial v true v true (Some rect).

Definition shows (c : card) : surface :=
  if hasError (ui c) then FailedToLoad else VideoSurface.

Fixpoint keyed (index : nat) (rs : list Reel) : list (string * Reel) :=
  match rs with
  | [] => []
  | r :: rs' => (card_key r index, r) :: keyed (S index) rs'
  end.

Definition render (data : Data) : gallery_view string :=
  let videos := normalize data in
  if Nat.eqb (length videos) 0 then NoVideos else Gallery (keyed 0 videos).

End GalleryA.

(** *** The gallery card with a single element *)

Module GalleryB.

Record card := mkCard {
  ui : gallery_state;
  videoSrc : string;
  video : Video.t;
  videoMounted : bool;
  progressRef : option DOMRect
}.

Definition videoRef (c : card) : option Video.t :=
  if videoMounted c then Some (video c) else None.

Definition with_ui (s : gallery_state) (c : card) : card :=
  mkCard s (videoSrc c) (video c) (videoMounted c) (progressRef c).

Definition with_video (v : Video.t) (c : card) : card :=
  mkCard (ui c) (videoSrc c) v (videoMounted c) (progressRef c).

(** The "load video" effect, run after the first render and when
    [videoSrc] changes.  [video.load()] resets the element. *)
Definition loadVideo (c : card) : card * list effect :=
  match videoRef c with
  | None => (c, [])
  | Some v =>
      if String.eqb (videoSrc c) "" then (c, [])
      else
        (with_ui (setHasError false (setIsLoading true (ui c)))
           (with_video (Video.mk true (Video.muted v) 0 nan) c),
         [video_load])
  end.

Definition handleTimeUpdate (c : card) : card :=
  match videoRef c with
  | None => c
  | Some video =>
      let s := setCurrentTime (Video.currentTime video) (ui c) in
      with_ui (setProgress
                 (Video.currentTime video / JS.or (Video.duration video) 1 * 100)
                 s) c
  end.

Definition togglePlay (o : settled) (c : card) : card * list effect :=
  match videoRef c with
  | None => (c, [])
  | Some video =>
      if Video.paused video then
        (with_video (Video.play o video) c,
         video_play :: match o with
                       | Fulfilled => []
                       | Rejected r => [console_error r]
                       end)
      else (with_video (Video.pause video) c, [video_pause])
  end.

Definition toggleMute (c : card) : card * list effect :=
  match videoRef c with
  | None => (c, [])
  | Some video =>
      let video' := Video.set_muted (negb (Video.muted video)) video in
      (with_ui (setIsMuted (Video.muted video') (ui c)) (with_video video' c),
       [video_set_muted (negb (Video.muted video))])
  end.

Definition handleProgressClick (clientX : float) (c : card) : card * list effect :=
  match progressRef c, videoRef c with
  | Some rect, Some video =>
      let pos := click_position clientX rect in
      let target := pos * Video.duration video in
      match Video.set_currentTime target video with
      | None => (c, [video_set_currentTime target; uncaught_TypeError])
      | Some video' => (with_video video' c, [video_set_currentTime target])
      end
  | _, _ => (c, [])
  end.

Definition run (cmd : gallery_command) (c : card) : card * list effect :=
  match cmd with
  | TogglePlay o => togglePlay o c
  | ToggleMute => toggleMute c
  | ProgressClick x => handleProgressClick x c
  | MouseEnter => (with_ui (setShowControls true (ui c)) c, [])
  | MouseLeave => (with_ui (setShowControls false (ui c)) c, [])
  end.

(** The render that follows a state change: the [<video>] is only rendered
    while [hasError] is false. *)
Definition commit (c : card) : card :=
  if hasError (ui c)
  then mkCard (ui c) (videoSrc c) (video c) false (progressRef c)
  else c.

(** The listeners.  [play], [pause], [timeupdate], [loadedmetadata] and
    [error] are registered once on the element of the first render;
    [handleLoadedMetadata] reads that element.  [canplay] is the [onCanPlay]
    prop of the [<video>]: it is delivered only while the element is
    rendered, so not after an error has unmounted it. *)
Definition on (e : gallery_event) (c : card) : card :=
  commit
    match e with
    | Play => with_ui (setIsPlaying true (ui c)) c
    | Pause => with_ui (setIsPlaying false (ui c)) c
    | TimeUpdate => handleTimeUpdate c
    | LoadedMetadata => with_ui (setDuration (Video.duration (video c)) (ui c)) c
    | CanPlay =>
        if videoMounted c then with_ui (setIsLoading false (ui c)) c else c
    | Error => with_ui (setHasError true (ui c)) c
    end.

(** A card after its first render. *)
Definition mounted (src : string) (v : Video.t) (rect : DOMRect) : card :=
  mkCard gallery_initial src v true (Some rect).

Definition shows (c : card) : surface :=
  if hasError (ui c) then FailedToLoad else VideoSurface.

Fixpoint keyed (index : nat) (rs : list Reel) : list (nat * Reel) :=
  match rs with
  | [] => []
  | r :: rs' => (index, r) :: keyed (S index) rs'
  end.

Definition render (data : Data) : gallery_view nat :=
  let videos := normalize' data in
  if Nat.eqb (length videos) 0 then NoVideos else Gallery (keyed 0 videos).

End GalleryB.

(** ** A page of cards *)

(** Every rendered card is its own component instance, with its own state
    cells, refs and elements; a gesture or a media event reaches the handlers
    of the one card it happens on. *)
Definition page_run {card command : Type}
    (run : command -> card -> card * list effect)
    (i : nat) (cmd : command) (page : list card) : list card * list effect :=
  match page !! i with
  | None => (page, [])
  | Some c => (<[i := fst (run cmd c)]> page, snd (run cmd c))
  end.

Definition page_on {card event : Type} (on : event -> card -> card)
    (i : nat) (e : event) (page : list card) : list card :=
  alter (on e) i page.

(** ** Runs of a card *)

(** What happens to a mounted card: a gesture of the user, or a media event
    of the element its listeners are registered on. *)
Inductive interaction (C E : Type) :=
| Gesture (cmd : C)
| Media (e : E).
Arguments Gesture {C E} cmd.
Arguments Media {C E} e.

Definition reel_step (a : interaction MotionReel.command MotionReel.event)
    (c : MotionReel.card) : MotionReel.card :=
  match a with
  | Gesture cmd => fst (MotionReel.run cmd c)
  | Media e => MotionReel.on e c
  end.

Definition galleryA_step (a : interaction gallery_command gallery_event)
    (c : GalleryA.card) : GalleryA.card :=
  match a with
  | Gesture cmd => fst (GalleryA.run cmd c)
  | Media e => GalleryA.on e c
  end.

(** The single-element card also has its load effect, which runs again when
    the source of its reel changes. *)
Inductive galleryB_action :=
| Interaction (a : interaction gallery_command gallery_event)
| Reload.

Definition galleryB_step (a : galleryB_action) (c : GalleryB.card) : GalleryB.card :=
  match a with
  | Interaction (Gesture cmd) => fst (GalleryB.run cmd c)
  | Interaction (Media e) => GalleryB.on e c
  | Reload => fst (GalleryB.loadVideo c)
  end.

(** The card after a sequence of steps, the first of the list first. *)
Definition run_all {A card : Type} (step : A -> card -> card)
    (actions : list A) (c : card) : card :=
  fold_left (fun c a => step a c) actions c.

(** The playing flag that a sequence of media events leaves, as the last
    [play] or [pause] among them says. *)
Fixpoint last_play_pause (es : list gallery_event) (before : bool) : bool :=
  match es with
  | [] => before
  | Play :: es' => last_play_pause es' true
  | Pause :: es' => last_play_pause es' false
  | _ :: es' => last_play_pause es' before
  end.

Fixpoint reel_last_play_pause (es : list MotionReel.event) (before : bool) : bool :=
  match es with
  | [] => before
  | MotionReel.Play :: es' => reel_last_play_pause es' true
  | MotionReel.Pause :: es' => reel_last_play_pause es' false
  | _ :: es' => reel_last_play_pause es' before
  end.

(** The event with which the element answers [togglePlay]: [pause()] on a
    playing element fires [pause]; [play()] on a paused element fires [play]
    when playback is allowed and nothing when the promise is rejected. *)
Definition answer (o : settled) (before : Video.t) : option gallery_event :=
  if Video.paused before
  then match o with Fulfilled => Some Play | Rejected _ => None end
  else Some Pause.

Definition reel_answer (o : settled) (before : Video.t) : option MotionReel.event :=
  if Video.paused before
  then match o with Fulfilled => Some MotionReel.Play | Rejected _ => None end
  else Some MotionReel.Pause.



(** [reel.id || reel.title], the name a card's key starts with. *)
Definition key_name (r : Reel) : string :=
  match id r with
  | Some s => if String.eqb s "" then title r else s
  | None => title r
  end.

(** The number a string of decimal digits stands for, with the power of ten
    of its length. *)
Fixpoint digits_value (s : string) : Z * Z :=
  match s with
  | EmptyString => (0, 1)%Z
  | String c s' =>
      let '(v, p) := digits_value s' in
      ((Z.of_nat (nat_of_ascii c) - 48) * p + v, 10 * p)%Z
  end.

(** ** A rounding invariant *)

(** The mantissa [m], exponent [e] and rounding location [l] of a value that
    is at most one: [m * 2^e <= 1], and where [m * 2^e] is one the value is
    exactly that.  Division and rounding are followed with it below. *)
Definition below_one (m e : Z) (l : location) : Prop :=
  (e <= -52 /\ 0 <= m <= 2 ^ (- e) /\ (m = 2 ^ (- e) -> l = loc_Exact))%Z.

(** ** The location of a quotient *)

(** Where the quotient [n / d] lies between two consecutive integers, as a
    rounding location: [rho] is the remainder. *)
Definition quotient_location (rho d : Z) : location :=
  if (rho =? 0)%Z then loc_Exact else loc_Inexact (2 * rho ?= d)%Z.

(** The record [r] holds the integer part and the location of [n / d]. *)
Definition holds_quotient (n d : Z) (r : shr_record) : Prop :=
  (0 < d /\ 0 <= n /\ shr_m r = n / d
   /\ loc_of_shr_record r = quotient_location (n mod d) d)%Z.

(** * Facts about numbers *)

Lemma SFcompare_antisym (x y : spec_float) :
  SFcompare y x = option_map CompOpp (SFcompare x y).
Proof.
  assert (Hm : forall p q, Pos.compare_cont Eq q p = CompOpp (Pos.compare_cont Eq p q))
    by (intros p q; rewrite Pos.compare_cont_antisym; reflexivity).
  destruct x as [sx|sx| |sx mx ex], y as [sy|sy| |sy my ey]; cbn;
    try (destruct sx); try (destruct sy); try reflexivity;
    rewrite (Z.compare_antisym ex ey), (Hm mx my);
    destruct (ex ?= ey)%Z; cbn; try reflexivity;
    destruct (Pos.compare_cont Eq mx my); reflexivity.
Qed.

Lemma SFcompare_refl (x : spec_float) :
  x <> S754_nan -> SFcompare x x = Some Eq.
Proof.
  destruct x as [s|s| |s m e]; cbn; try congruence; intros _;
    destruct s; try reflexivity;
    rewrite Z.compare_refl, Pos.compare_cont_refl; reflexivity.
Qed.

Lemma is_nan_Prim2SF (x : float) :
  is_nan x = match Prim2SF x with S754_nan => true | _ => false end.
Proof.
  unfold is_nan. rewrite FloatAxioms.eqb_spec. unfold SFeqb.
  destruct (Prim2SF x) as [s|s| |s m e] eqn:E; try reflexivity;
    rewrite SFcompare_refl by congruence; reflexivity.
Qed.

Lemma ltb_leb (x y : float) : (x <? y) = true -> (x <=? y) = true.
Proof.
  rewrite ltb_spec, leb_spec. unfold SFltb, SFleb.
  destruct (SFcompare (Prim2SF x) (Prim2SF y)) as [[| |]|]; congruence.
Qed.

Lemma not_ltb_leb (x y : float) :
  is_nan x = false -> is_nan y = false -> (x <? y) = false -> (y <=? x) = true.
Proof.
  rewrite !is_nan_Prim2SF, ltb_spec, leb_spec. unfold SFltb, SFleb.
  rewrite (SFcompare_antisym (Prim2SF x) (Prim2SF y)).
  destruct (Prim2SF x) as [sx|sx| |sx mx ex], (Prim2SF y) as [sy|sy| |sy my ey];
    try discriminate; intros _ _;
    match goal with
    | |- context [SFcompare ?a ?b] => destruct (SFcompare a b) as [[| |]|] eqn:E
    end; cbn in *; congruence.
Qed.

Lemma is_zero_Prim2SF (x : float) :
  is_zero x = match Prim2SF x with S754_zero _ => true | _ => false end.
Proof.
  unfold is_zero. rewrite FloatAxioms.eqb_spec. unfold SFeqb.
  change (Prim2SF PrimFloat.zero) with (S754_zero false).
  destruct (Prim2SF x) as [s|s| |s m e]; try destruct s; reflexivity.
Qed.

(** A [NaN] factor makes the product [NaN]. *)
Lemma is_nan_mul_r (x d : float) : is_nan d = true -> is_nan (x * d) = true.
Proof.
  rewrite !is_nan_Prim2SF, mul_spec.
  destruct (Prim2SF d) as [s|s| |s m e]; try discriminate; intros _.
  destruct (Prim2SF x) as [s|s| |s m e]; reflexivity.
Qed.

(** A fraction within [0,1] times a zero is a zero. *)
Lemma is_zero_mul_r (x d : float) :
  (0 <=? x) = true -> (x <=? 1) = true -> is_zero d = true ->
  is_zero (x * d) = true.
Proof.
  rewrite !leb_spec, !is_zero_Prim2SF, mul_spec. unfold SFleb.
  change (Prim2SF 0) with (S754_zero false).
  change (Prim2SF 1) with (S754_finite false 4503599627370496 (-52)).
  destruct (Prim2SF d) as [sd|sd| |sd md ed]; try discriminate.
  destruct (Prim2SF x) as [s|s| |s m e].
  - intros _ _ _. reflexivity.
  - destruct s; cbn; congruence.
  - cbn; congruence.
  - intros _ _ _. reflexivity.
Qed.

(** The clamp [Math.max(0, Math.min(1, y))]: [NaN] for [NaN], and within
    [0,1] otherwise. *)
Lemma clamp_range (y : float) :
  let p := JS.Math_max 0 (JS.Math_min 1 y) in
  (is_nan y = true /\ is_nan p = true)
  \/ (is_nan y = false /\ (0 <=? p) = true /\ (p <=? 1) = true).
Proof.
  cbv zeta. unfold JS.Math_min.
  change (is_nan 1) with false. change (get_sign 1) with false. cbn [orb].
  destruct (is_nan y) eqn:Hy.
  - left. split; reflexivity.
  - right. split; [reflexivity|].
    assert (Hm : exists m, (if 1 <? y then 1 else if y <? 1 then y else y) = m
                           /\ is_nan m = false /\ (m <=? 1) = true).
    { destruct (1 <? y) eqn:H1.
      - exists 1. repeat split; reflexivity.
      - exists y. split; [destruct (y <? 1); reflexivity|]. split; [exact Hy|].
        apply not_ltb_leb; [reflexivity | exact Hy | exact H1]. }
    destruct Hm as (m & -> & Hm & Hle).
    unfold JS.Math_max.
    change (is_nan 0) with false. change (get_sign 0) with false.
    rewrite Hm. cbn [orb].
    destruct (m <? 0) eqn:Hneg; [split; reflexivity|].
    destruct (0 <? m) eqn:Hpos; [|split; reflexivity].
    split; [apply ltb_leb; exact Hpos | exact Hle].
Qed.

Lemma is_finite_nan (t : float) : is_nan t = true -> is_finite t = false.
Proof. unfold is_finite. intros ->. reflexivity. Qed.

Lemma is_finite_zero (t : float) : is_zero t = true -> is_finite t = true.
Proof.
  unfold is_finite, is_infinity.
  rewrite is_zero_Prim2SF, is_nan_Prim2SF, FloatAxioms.eqb_spec, abs_spec.
  change (Prim2SF infinity) with (S754_infinity false).
  destruct (Prim2SF t) as [s|s| |s m e]; try discriminate. reflexivity.
Qed.

(** ** The quotient of a time by a duration at least as large *)

Section DivisionWithinUnit.

Local Open Scope Z_scope.

Lemma digits2_pos_bounds (p : positive) :
  2 ^ (Zpos (digits2_pos p) - 1) <= Zpos p < 2 ^ Zpos (digits2_pos p).
Proof.
  induction p as [p IH|p IH|]; cbn [digits2_pos]; [| |cbn; lia].
  all: rewrite Pos2Z.inj_succ, Z.pow_succ_r by lia.
  all: replace (Z.succ (Zpos (digits2_pos p)) - 1) with (Z.succ (Zpos (digits2_pos p) - 1)) by lia.
  all: rewrite Z.pow_succ_r by lia; lia.
Qed.

Lemma Zdigits2_le_pow (m k : Z) : 0 <= k -> 0 <= m <= 2 ^ k -> Zdigits2 m <= k + 1.
Proof.
  intros Hk [H0 Hm]. destruct m as [|p|p]; cbn [Zdigits2]; try lia.
  pose proof (digits2_pos_bounds p) as [Hlo _].
  destruct (Z.le_gt_cases (Zpos (digits2_pos p)) (k + 1)) as [|Hgt]; [assumption|].
  exfalso. assert (2 ^ (k + 1) <= 2 ^ (Zpos (digits2_pos p) - 1))
    by (apply Z.pow_le_mono_r; lia).
  rewrite Z.pow_add_r in H by lia. lia.
Qed.

Lemma iter_pos_nat {A : Type} (f : A -> A) (p : positive) : forall x,
  SpecFloat.iter_pos f p x = Nat.iter (Pos.to_nat p) f x.
Proof.
  induction p as [p IH|p IH|]; intros x; cbn [SpecFloat.iter_pos].
  - rewrite !IH, Pos2Nat.inj_xI, <- Nat.iter_add, <- Nat.iter_succ_r.
    f_equal. lia.
  - rewrite !IH, Pos2Nat.inj_xO, <- Nat.iter_add. f_equal. lia.
  - reflexivity.
Qed.

Lemma shr_1_m (x : shr_record) : 0 <= shr_m x -> shr_m (shr_1 x) = shr_m x / 2.
Proof.
  destruct x as [[|[p|p|]|p] r s]; cbn; intros H; try lia; try reflexivity.
  - rewrite Pos2Z.inj_xI. apply Z.div_unique with (r := 1); lia.
  - rewrite Pos2Z.inj_xO. apply Z.div_unique with (r := 0); lia.
Qed.

Lemma shr_1_exact (x : shr_record) :
  loc_of_shr_record x = loc_Exact -> Z.even (shr_m x) = true ->
  loc_of_shr_record (shr_1 x) = loc_Exact.
Proof.
  destruct x as [[|[p|p|]|[p|p|]] [|] [|]]; cbn; congruence.
Qed.

Lemma shr_iter_m (n : nat) : forall x, 0 <= shr_m x ->
  shr_m (Nat.iter n shr_1 x) = shr_m x / 2 ^ Z.of_nat n.
Proof.
  induction n as [|n IH]; intros x Hx.
  - cbn. rewrite Z.div_1_r. reflexivity.
  - rewrite Nat.iter_succ_r.
    rewrite IH by (rewrite shr_1_m by lia; apply Z.div_pos; lia).
    rewrite shr_1_m by lia.
    rewrite Nat2Z.inj_succ, Z.pow_succ_r, Z.div_div by lia. reflexivity.
Qed.

Lemma shr_iter_exact (n : nat) : forall x, 0 <= shr_m x ->
  loc_of_shr_record x = loc_Exact -> shr_m x mod 2 ^ Z.of_nat n = 0 ->
  loc_of_shr_record (Nat.iter n shr_1 x) = loc_Exact.
Proof.
  induction n as [|n IH]; intros x Hx Hl Hd; [exact Hl|].
  rewrite Nat2Z.inj_succ, Z.pow_succ_r in Hd by lia.
  assert (H2 : shr_m x mod 2 = 0).
  { rewrite Z.rem_mul_r in Hd by lia.
    pose proof (Z.mod_pos_bound (shr_m x) 2 ltac:(lia)).
    pose proof (Z.mod_pos_bound (shr_m x / 2) (2 ^ Z.of_nat n) ltac:(lia)). lia. }
  rewrite Nat.iter_succ_r. apply IH.
  - rewrite shr_1_m by lia. apply Z.div_pos; lia.
  - apply shr_1_exact; [exact Hl|]. rewrite Zeven_mod, H2. reflexivity.
  - rewrite shr_1_m by lia.
    rewrite Z.rem_mul_r, H2 in Hd by lia.
    pose proof (Z.mod_pos_bound (shr_m x / 2) (2 ^ Z.of_nat n) ltac:(lia)). lia.
Qed.

Lemma fexp_eq (z : Z) : fexp prec emax z = Z.max (z - 53) (-1074).
Proof. reflexivity. Qed.

Lemma loc_of_shr_record_of_loc (m : Z) (l : location) :
  loc_of_shr_record (shr_record_of_loc m l) = l
  /\ shr_m (shr_record_of_loc m l) = m.
Proof. destruct l as [|[| |]]; split; reflexivity. Qed.

Lemma shr_fexp_below_one (m e : Z) (l : location) :
  below_one m e l ->
  below_one (shr_m (fst (shr_fexp prec emax m e l)))
            (snd (shr_fexp prec emax m e l))
            (loc_of_shr_record (fst (shr_fexp prec emax m e l))).
Proof.
  intros (He & [Hm0 Hm] & Hex).
  pose proof (Zdigits2_le_pow m (- e) ltac:(lia) (conj Hm0 Hm)) as Hd.
  destruct (loc_of_shr_record_of_loc m l) as [Hl Hrm].
  unfold shr_fexp, shr. rewrite fexp_eq.
  destruct (Z.max (Zdigits2 m + e - 53) (-1074) - e) as [|p|p] eqn:Hn; cbn [fst snd].
  - rewrite Hl, Hrm. repeat split; assumption.
  - rewrite iter_pos_nat.
    rewrite shr_iter_m by (rewrite Hrm; exact Hm0).
    rewrite Hrm, positive_nat_Z.
    assert (Hp : 2 ^ (- e) = 2 ^ (- (e + Z.pos p)) * 2 ^ Z.pos p)
      by (rewrite <- Z.pow_add_r by lia; f_equal; lia).
    assert (H2p : 0 < 2 ^ Z.pos p) by (apply Z.pow_pos_nonneg; lia).
    split; [lia|]. split.
    + split; [apply Z.div_pos; lia|].
      apply Z.div_le_upper_bound; lia.
    + intros Heq.
      assert (Hm' : m = 2 ^ (- e)).
      { pose proof (Z.mul_div_le m (2 ^ Z.pos p) H2p). nia. }
      apply shr_iter_exact.
      * rewrite Hrm. exact Hm0.
      * rewrite Hl. apply Hex, Hm'.
      * rewrite Hrm, positive_nat_Z, Hm', Hp. apply Z.mod_mul. lia.
  - rewrite Hl, Hrm. repeat split; assumption.
Qed.

Lemma round_below_one (m e : Z) (l : location) :
  below_one m e l -> below_one (round_nearest_even m l) e loc_Exact.
Proof.
  intros (He & [Hm0 Hm] & Hex).
  split; [exact He|]. split; [|reflexivity].
  destruct (Z.eq_dec m (2 ^ (- e))) as [Heq|Hne].
  - rewrite (Hex Heq). cbn. lia.
  - destruct l as [|[| |]]; cbn; try destruct (Z.even m); lia.
Qed.

(** Rounding a value of at most one gives a number between zero and one. *)
Lemma binary_round_aux_below_one (m e : Z) (l : location) :
  below_one m e l ->
  SFleb (binary_round_aux prec emax false m e l) (Prim2SF 1) = true
  /\ SFleb (Prim2SF 0) (binary_round_aux prec emax false m e l) = true.
Proof.
  intros H. unfold binary_round_aux.
  pose proof (shr_fexp_below_one m e l H) as H1.
  destruct (shr_fexp prec emax m e l) as [mrs' e1]. cbn [fst snd] in H1.
  pose proof (shr_fexp_below_one _ _ _ (round_below_one _ _ _ H1)) as H2.
  destruct (shr_fexp prec emax _ e1 loc_Exact) as [mrs'' e2]. cbn [fst snd] in H2.
  destruct H2 as (He & [Hm0 Hm] & _).
  change (Prim2SF 1) with (S754_finite false 4503599627370496 (-52)).
  change (Prim2SF 0) with (S754_zero false).
  destruct (shr_m mrs'') as [|p|p]; [split; reflexivity| |lia].
  replace (e2 <=? emax - prec) with true
    by (symmetry; apply Z.leb_le; change (emax - prec) with 971; lia).
  split; [|reflexivity].
  unfold SFleb, SFcompare.
  destruct (Z.compare_spec e2 (-52)) as [Heq|Hlt|Hgt]; [|reflexivity|lia].
  subst e2.
  assert (E : 2 ^ (- -52) = Zpos 4503599627370496) by (vm_compute; reflexivity).
  rewrite E in Hm. rewrite Pos.compare_cont_spec.
  destruct (Pos.compare_spec p 4503599627370496); try reflexivity. lia.
Qed.

Lemma new_location_zero (n : Z) : new_location n 0 = loc_Exact.
Proof.
  unfold new_location, new_location_even, new_location_odd.
  destruct (Z.even n); reflexivity.
Qed.

(** The quotient of two positive numbers, the first at most the second, before
    it is rounded. *)
Lemma SFdiv_core_below_one (mx my : positive) (ex ey : Z) :
  canonical_mantissa prec emax mx ex = true ->
  canonical_mantissa prec emax my ey = true ->
  SFleb (S754_finite false mx ex) (S754_finite false my ey) = true ->
  below_one (fst (fst (SFdiv_core_binary prec emax (Zpos mx) ex (Zpos my) ey)))
            (snd (fst (SFdiv_core_binary prec emax (Zpos mx) ex (Zpos my) ey)))
            (snd (SFdiv_core_binary prec emax (Zpos mx) ex (Zpos my) ey)).
Proof.
  unfold canonical_mantissa. rewrite !fexp_eq, !Z.eqb_eq. intros Hcx Hcy Hle.
  pose proof (digits2_pos_bounds mx) as [Hxl Hxu].
  pose proof (digits2_pos_bounds my) as [Hyl Hyu].
  set (dx := Zpos (digits2_pos mx)) in *. set (dy := Zpos (digits2_pos my)) in *.
  assert (Hdx : 0 < dx) by (subst dx; lia).
  assert (Hdy : 0 < dy) by (subst dy; lia).
  (* the order of the two numbers, read off the comparison *)
  assert (Hord : (ex = ey /\ Zpos mx <= Zpos my) \/ (ex < ey /\ dx <= 53 /\ dy = 53)).
  { unfold SFleb, SFcompare in Hle. rewrite Pos.compare_cont_spec in Hle.
    destruct (Z.compare_spec ex ey) as [He|He|He]; [|right; lia|discriminate].
    left. split; [exact He|].
    destruct (Pos.compare_spec mx my); cbn in Hle; try discriminate; lia. }
  assert (Hdig : dx + ex <= dy + ey).
  { destruct Hord as [[He Hm]|(He & H1 & H2)]; [|lia].
    destruct (Z.le_gt_cases dx dy) as [|Hgt]; [lia|exfalso].
    assert (2 ^ dy <= 2 ^ (dx - 1)) by (apply Z.pow_le_mono_r; lia). lia. }
  unfold SFdiv_core_binary. cbv zeta. cbn [Zdigits2]. fold dx dy. rewrite fexp_eq.
  change IntDef.Z.min with Z.min. change IntDef.Z.div_eucl with Z.div_eucl.
  change IntDef.Z.shiftl with Z.shiftl.
  set (e' := Z.min (Z.max (dx + ex - (dy + ey) - 53) (-1074)) (ex - ey)).
  assert (He' : e' <= -53 /\ e' <= ex - ey) by (subst e'; lia).
  set (s := ex - ey - e').
  assert (Hs : 0 <= s) by (subst s; lia).
  set (m' := match s with 0 => Zpos mx | Zpos _ => Z.shiftl (Zpos mx) s | Zneg _ => 0 end).
  assert (Hm' : m' = Zpos mx * 2 ^ s).
  { subst m'. destruct s as [|p|p] eqn:E; [lia| |lia].
    apply Z.shiftl_mul_pow2. lia. }
  (* the scaled dividend is at most the divisor times 2^(-e') *)
  assert (Hbound : m' <= Zpos my * 2 ^ (- e')).
  { rewrite Hm'. destruct Hord as [[He Hm]|(He & H1 & H2)].
    - replace s with (- e') by (subst s; lia).
      apply Z.mul_le_mono_nonneg_r; [apply Z.pow_nonneg|]; lia.
    - assert (E : - e' = s + (ey - ex)) by (subst s; lia).
      rewrite E, Z.pow_add_r by lia.
      assert (HA : 0 < 2 ^ s) by (apply Z.pow_pos_nonneg; lia).
      assert (HB : 2 ^ 1 <= 2 ^ (ey - ex)) by (apply Z.pow_le_mono_r; lia).
      assert (Hx53 : Zpos mx < 2 ^ 53).
      { apply Z.lt_le_trans with (1 := Hxu). apply Z.pow_le_mono_r; lia. }
      assert (Hy52 : 2 ^ 52 <= Zpos my) by (rewrite H2 in Hyl; exact Hyl).
      assert (Hxy : Zpos mx <= 2 * Zpos my).
      { assert (E53 : 2 ^ 53 = 2 * 2 ^ 52) by reflexivity. lia. }
      change (2 ^ 1) with 2 in HB.
      apply Z.le_trans with (2 * Zpos my * 2 ^ s).
      + apply Z.mul_le_mono_nonneg_r; lia.
      + rewrite (Z.mul_comm 2 (Zpos my)), <- Z.mul_assoc.
        apply Z.mul_le_mono_nonneg_l; [lia|].
        rewrite (Z.mul_comm 2). apply Z.mul_le_mono_nonneg_l; lia. }
  pose proof (Z_div_mod m' (Zpos my) ltac:(lia)) as Hdiv.
  destruct (Z.div_eucl m' (Zpos my)) as [q r]. cbn [fst snd].
  destruct Hdiv as [Hq Hr].
  assert (Hpow : 0 < 2 ^ (- e')) by (apply Z.pow_pos_nonneg; lia).
  assert (Hm0 : 0 <= m') by (rewrite Hm'; apply Z.mul_nonneg_nonneg; [lia|apply Z.pow_nonneg; lia]).
  split; [lia|]. split; [split; nia|].
  intros Heq. replace r with 0 by nia. apply new_location_zero.
Qed.

End DivisionWithinUnit.

Lemma is_finite_Prim2SF (x : float) :
  is_finite x = match Prim2SF x with
                | S754_zero _ | S754_finite _ _ _ => true
                | _ => false
                end.
Proof.
  unfold is_finite, is_infinity.
  rewrite is_nan_Prim2SF, FloatAxioms.eqb_spec, abs_spec.
  change (Prim2SF infinity) with (S754_infinity false).
  destruct (Prim2SF x) as [s|s| |s m e]; reflexivity.
Qed.

(** A time between zero and a finite, non-zero duration, divided by the
    duration, is between zero and one: the rounding of the division cannot
    leave the interval. *)
Lemma div_within_unit (c d : float) :
  (0 <=? c) = true -> (c <=? d) = true ->
  is_finite d = true -> is_zero d = false ->
  (0 <=? c / d) = true /\ (c / d <=? 1) = true.
Proof.
  rewrite is_finite_Prim2SF, is_zero_Prim2SF, !leb_spec, div_spec.
  pose proof (Prim2SF_valid c) as Vc. pose proof (Prim2SF_valid d) as Vd.
  change (Prim2SF 0) with (S754_zero false).
  destruct (Prim2SF d) as [sd|sd| |sd md ed]; try discriminate.
  destruct (Prim2SF c) as [sc|sc| |sc mc ec].
  - intros _ _ _ _.
    change (Prim2SF 1) with (S754_finite false 4503599627370496 (-52)).
    destruct sc, sd; split; reflexivity.
  - destruct sc, sd; discriminate.
  - discriminate.
  - destruct sc; [discriminate|]. destruct sd; [discriminate|].
    intros _ Hle _ _.
    apply andb_prop in Vc as [Vc _]. apply andb_prop in Vd as [Vd _].
    pose proof (SFdiv_core_below_one mc md ec ed Vc Vd Hle) as H.
    unfold SF64div, SFdiv.
    destruct (SFdiv_core_binary prec emax (Z.pos mc) ec (Z.pos md) ed) as [[q e'] l].
    cbn [fst snd xorb] in H |- *.
    destruct (binary_round_aux_below_one q e' l H) as [H1 H0].
    split; assumption.
Qed.

(** The same for the guarded quotient [c / (d || 1)], for every finite
    duration, zero included. *)
Lemma guarded_quotient_within_unit (c d : float) :
  (0 <=? c) = true -> (c <=? d) = true -> is_finite d = true ->
  (0 <=? c / JS.or d 1) = true /\ (c / JS.or d 1 <=? 1) = true.
Proof.
  intros H0 Hle Hfin. unfold JS.or, JS.truthy.
  assert (Hn : is_nan d = false).
  { unfold is_finite in Hfin. destruct (is_nan d); [discriminate|reflexivity]. }
  rewrite Hn, orb_false_r.
  destruct (is_zero d) eqn:Hz; cbn [negb]; [|apply div_within_unit; assumption].
  revert H0 Hle Hz. rewrite is_zero_Prim2SF, !leb_spec, div_spec.
  change (Prim2SF 0) with (S754_zero false).
  change (Prim2SF 1) with (S754_finite false 4503599627370496 (-52)).
  destruct (Prim2SF d) as [sd|sd| |sd md ed]; try discriminate.
  destruct (Prim2SF c) as [sc|sc| |sc mc ec]; try destruct sc; try discriminate;
    intros _ _ _; split; reflexivity.
Qed.

(** * Row layout *)

Section LayoutFacts.

Context {A : Type}.
Implicit Types items : list A.

Lemma rowSize_cases i : Layout.rowSize i = 3%nat \/ Layout.rowSize i = 2%nat.
Proof.
  unfold Layout.rowSize; cbn [Layout.pattern length].
  pose proof (Nat.mod_upper_bound i 2 ltac:(lia)) as Hlt.
  remember (i mod 2)%nat as r eqn:Hr; clear Hr.
  destruct r as [|[|r]]; cbn; auto; lia.
Qed.

Lemma rowStart_mono i k : (i <= k)%nat -> (Layout.rowStart i <= Layout.rowStart k)%nat.
Proof. induction 1; cbn; lia. Qed.

(** Laying the rows end to end gives the input back. *)
Lemma chunkFrom_concat i items : concat (Layout.chunkFrom i items) = items.
Proof.
  funelim (Layout.chunkFrom i items); simp chunkFrom; [reflexivity|].
  cbn [concat]. rewrite H. apply take_drop.
Qed.

(** Row [j] of a layout that starts at row index [i]. *)
Lemma chunkFrom_lookup j : forall i items,
  Layout.chunkFrom i items !! j =
  let start := (Layout.rowStart (i + j) - Layout.rowStart i)%nat in
  if decide (start < length items)%nat
  then Some (take (Layout.rowSize (i + j)) (drop start items))
  else None.
Proof.
  induction j as [|j IH]; intros i [|x xs]; simp chunkFrom; cbv zeta.
  - rewrite decide_False by (cbn; lia). reflexivity.
  - rewrite Nat.add_0_r, Nat.sub_diag, decide_True by (cbn; lia). reflexivity.
  - rewrite decide_False by (cbn; lia). reflexivity.
  - cbn [lookup list_lookup]. rewrite IH. cbv zeta.
    replace (S i + j)%nat with (i + S j)%nat by lia.
    pose proof (rowStart_mono (S i) (i + S j) ltac:(lia)) as Hm.
    cbn [Layout.rowStart] in Hm.
    rewrite length_drop, drop_drop.
    replace (Layout.rowSize i + (Layout.rowStart (i + S j) - Layout.rowStart (S i)))%nat
      with (Layout.rowStart (i + S j) - Layout.rowStart i)%nat
      by (cbn [Layout.rowStart]; lia).
    cbn [Layout.rowStart].
    destruct (decide (Layout.rowStart (i + S j)
                      - (Layout.rowStart i + Layout.rowSize i)
                      < length (x :: xs) - Layout.rowSize i)%nat);
      [rewrite decide_True by lia | rewrite decide_False by lia]; reflexivity.
Qed.

End LayoutFacts.

(** C1. [chunkByPattern] lays any list out in rows of 3, 2, 3, 2, ... items
    in input order: no rows for the empty list, rows of sizes [3,2] for five
    items and [3,2,2] for seven, the rows laid end to end are the input
    (nothing dropped, duplicated or reordered), and row [i] is the next
    [rowSize i] items after those of the rows before it (fewer if the input
    ends).  The function is total. *)
Theorem chunkByPattern_partitions :
  (forall A : Type, Layout.chunkByPattern (@nil A) = [])
  /\ (forall (A : Type) (a b c d e : A),
        Layout.chunkByPattern [a; b; c; d; e] = [[a; b; c]; [d; e]])
  /\ (forall (A : Type) (a b c d e f g : A),
        Layout.chunkByPattern [a; b; c; d; e; f; g]
        = [[a; b; c]; [d; e]; [f; g]])
  /\ (forall (A : Type) (items : list A),
        concat (Layout.chunkByPattern items) = items)
  /\ (forall (A : Type) (items : list A) (i : nat),
        Layout.chunkByPattern items !! i =
        if decide (Layout.rowStart i < length items)%nat
        then Some (take (Layout.rowSize i) (drop (Layout.rowStart i) items))
        else None).
Proof.
  unfold Layout.chunkByPattern.
  split; [|split; [|split; [|split]]]; intros.
  - simp chunkFrom. reflexivity.
  - simp chunkFrom. reflexivity.
  - simp chunkFrom. reflexivity.
  - apply chunkFrom_concat.
  - rewrite chunkFrom_lookup. cbn [Nat.add Layout.rowStart].
    rewrite Nat.sub_0_r. reflexivity.
Qed.

(** * Progress *)

(** [duration || 1] is never a zero and never [NaN]: it is [1] when the
    duration is a zero or [NaN], and the duration itself otherwise. *)
Lemma or_one_guard (d : float) :
  is_zero (JS.or d 1) = false /\ is_nan (JS.or d 1) = false
  /\ JS.or d 1 = (if is_zero d || is_nan d then 1 else d).
Proof.
  unfold JS.or, JS.truthy.
  destruct (is_zero d) eqn:Hz, (is_nan d) eqn:Hn; cbn [orb negb];
    repeat split; try reflexivity; assumption.
Qed.

(** C2 (counterexample).  Half way through a ten-second video the gallery
    cards store a progress of 50, and five seconds into a video whose
    duration is still [NaN] the reel card stores 5: neither is within [0,1]. *)
Lemma progress_outside_unit_interval :
  progress (GalleryA.ui (GalleryA.handleTimeUpdate
                           (GalleryA.mounted (Video.mk false false 5 10) (mkRect 0 300))))
  = 50
  /\ progress (GalleryB.ui (GalleryB.handleTimeUpdate
                              (GalleryB.mounted "a.mp4" (Video.mk false false 5 10)
                                 (mkRect 0 300))))
     = 50
  /\ MotionReel.progress
       (MotionReel.ui (MotionReel.handleProgress
                         (MotionReel.mkCard MotionReel.initial
                            (Some (Video.mk false true 5 nan)))))
     = 5
  /\ (50 <=? 1) = false /\ (5 <=? 1) = false.
Proof. repeat split; reflexivity. Qed.

(** C2 (amended).  On a time update the reel card stores the quotient
    [currentTime / (duration || 1)] and the gallery cards store that quotient
    times 100, a percentage; nothing is clamped.  The divisor is never a zero
    and never [NaN]: a duration of 0 or [NaN] is replaced by 1.  The quotient
    is within [0,1] whenever the element reports a current time between 0
    and a finite duration. *)
Theorem progress_is_guarded_quotient
    (s : MotionReel.state) (g : gallery_state) (v m : Video.t)
    (src : string) (bar : option DOMRect) :
  let d := JS.or (Video.duration v) 1 in
  let fraction := Video.currentTime v / d in
  MotionReel.progress
    (MotionReel.ui (MotionReel.handleProgress (MotionReel.mkCard s (Some v))))
  = fraction
  /\ progress (GalleryA.ui (GalleryA.handleTimeUpdate
                              (GalleryA.mkCard g v true m true bar)))
     = fraction * 100
  /\ progress (GalleryB.ui (GalleryB.handleTimeUpdate
                              (GalleryB.mkCard g src v true bar)))
     = fraction * 100
  /\ is_zero d = false /\ is_nan d = false
  /\ d = (if is_zero (Video.duration v) || is_nan (Video.duration v)
          then 1 else Video.duration v)
  /\ ((0 <=? Video.currentTime v) = true ->
      (Video.currentTime v <=? Video.duration v) = true ->
      is_finite (Video.duration v) = true ->
      (0 <=? fraction) = true /\ (fraction <=? 1) = true).
Proof.
  cbv zeta. destruct (or_one_guard (Video.duration v)) as (Hz & Hn & Hd).
  repeat (split; [reflexivity || assumption|]).
  apply guarded_quotient_within_unit.
Qed.

Lemma progress_is_guarded_quotient_witness :
  (0 <=? 5 / JS.or 10 1) = true /\ (5 / JS.or 10 1 <=? 1) = true.
Proof.
  apply (progress_is_guarded_quotient MotionReel.initial gallery_initial
           (Video.mk false true 5 10) (Video.mk false true 5 10) "a.mp4" None);
    reflexivity.
Defined.

(** * Time format *)

(** ** Exact normalisation *)

Section ExactNumbers.

Local Open Scope Z_scope.

Lemma canonical_cases (m : positive) (e : Z) :
  canonical_mantissa prec emax m e = true ->
  -1074 <= e /\ Zpos (digits2_pos m) <= 53
  /\ (-1074 < e -> Zpos (digits2_pos m) = 53).
Proof. unfold canonical_mantissa. rewrite fexp_eq, Z.eqb_eq. lia. Qed.

Lemma digits2_le_lt (m : positive) (k : Z) :
  Zpos (digits2_pos m) <= k -> Zpos m < 2 ^ k.
Proof.
  intros H. pose proof (digits2_pos_bounds m) as [_ Hu].
  apply Z.lt_le_trans with (1 := Hu). apply Z.pow_le_mono_r; lia.
Qed.

Lemma digits2_lt_le (m : positive) (k : Z) :
  0 <= k -> Zpos m < 2 ^ k -> Zpos (digits2_pos m) <= k.
Proof.
  intros Hk H. pose proof (digits2_pos_bounds m) as [Hl _].
  destruct (Z.le_gt_cases (Zpos (digits2_pos m)) k) as [|Hgt]; [assumption|exfalso].
  assert (2 ^ k <= 2 ^ (Zpos (digits2_pos m) - 1)) by (apply Z.pow_le_mono_r; lia).
  lia.
Qed.

Lemma digits2_iter_xO (m d : positive) :
  digits2_pos (Pos.iter xO m d) = (digits2_pos m + d)%positive.
Proof.
  induction d as [|d IH] using Pos.peano_ind.
  - cbn. lia.
  - rewrite Pos.iter_succ. cbn [digits2_pos]. rewrite IH. lia.
Qed.

Lemma Zpos_iter_xO (m d : positive) :
  Zpos (Pos.iter xO m d) = Zpos m * 2 ^ Zpos d.
Proof.
  induction d as [|d IH] using Pos.peano_ind.
  - cbn. lia.
  - rewrite Pos.iter_succ, Pos2Z.inj_xO, IH, Pos2Z.inj_succ, Z.pow_succ_r by lia. lia.
Qed.

(** A mantissa that is already canonical is not rounded. *)
Lemma binary_round_aux_canonical (m : positive) (e : Z) :
  canonical_mantissa prec emax m e = true -> e <= 971 ->
  binary_round_aux prec emax false (Zpos m) e loc_Exact = S754_finite false m e.
Proof.
  unfold canonical_mantissa. rewrite Z.eqb_eq. intros Hc He.
  unfold binary_round_aux, shr_fexp. cbn [Zdigits2].
  rewrite Hc, Z.sub_diag. cbn [shr shr_record_of_loc shr_m loc_of_shr_record round_nearest_even].
  cbn [Zdigits2]. rewrite Hc, Z.sub_diag. cbn [shr shr_record_of_loc shr_m].
  replace (e <=? emax - prec) with true; [reflexivity|].
  symmetry. apply Z.leb_le. change (emax - prec) with 971. exact He.
Qed.

(** Normalising an integer multiple of a power of two that fits the
    precision is exact. *)
Lemma binary_normalize_exact (r : positive) (e0 : Z) :
  Zpos (digits2_pos r) <= 53 -> -1074 <= e0 <= 971 ->
  exists mz,
    binary_normalize prec emax (Zpos r) e0 false
    = S754_finite false mz (fexp prec emax (Zpos (digits2_pos r) + e0))
    /\ Zpos mz = Zpos r * 2 ^ (e0 - fexp prec emax (Zpos (digits2_pos r) + e0))
    /\ fexp prec emax (Zpos (digits2_pos r) + e0) <= e0
    /\ valid_binary (S754_finite false mz (fexp prec emax (Zpos (digits2_pos r) + e0)))
       = true.
Proof.
  intros Hd He. set (fe := fexp prec emax (Zpos (digits2_pos r) + e0)).
  assert (Hfe : fe <= e0) by (subst fe; rewrite fexp_eq; lia).
  assert (Hfe' : fe = Z.max (Zpos (digits2_pos r) + e0 - 53) (-1074))
    by (subst fe; apply fexp_eq).
  unfold binary_normalize, binary_round, shl_align. fold fe.
  destruct (fe - e0) as [|d|d] eqn:Hs; [| lia |].
  - assert (E : fe = e0) by lia.
    assert (Hc : canonical_mantissa prec emax r e0 = true).
    { unfold canonical_mantissa. apply Z.eqb_eq. fold fe. exact E. }
    exists r. rewrite binary_round_aux_canonical by (assumption || lia).
    rewrite E, Z.sub_diag. repeat split; try lia.
    cbn [valid_binary]. unfold bounded. rewrite Hc. cbn [andb].
    apply Z.leb_le. change (emax - prec) with 971. lia.
  - assert (Hc : canonical_mantissa prec emax (Pos.iter xO r d) fe = true).
    { unfold canonical_mantissa. apply Z.eqb_eq.
      rewrite digits2_iter_xO, Pos2Z.inj_add, fexp_eq. lia. }
    exists (Pos.iter xO r d). rewrite binary_round_aux_canonical by (assumption || lia).
    repeat split; try lia.
    + rewrite Zpos_iter_xO. f_equal. f_equal. lia.
    + cbn [valid_binary]. unfold bounded. rewrite Hc. cbn [andb].
      apply Z.leb_le. change (emax - prec) with 971. lia.
Qed.

Lemma Math_floor_finite (x : float) (m : positive) (e : Z) :
  Prim2SF x = S754_finite false m e -> e < 0 ->
  JS.Math_floor x = JS.of_Z (Zpos m / 2 ^ (- e)).
Proof.
  intros H He. unfold JS.Math_floor, JS.of_Z. rewrite H.
  replace (0 <=? e) with false by (symmetry; apply Z.leb_gt; exact He).
  cbn [cond_Zopp]. rewrite Z.shiftr_div_pow2 by lia. reflexivity.
Qed.

Lemma mod_mul_div (a b c : Z) : 0 < b -> 0 < c -> (a mod (b * c)) / b = (a / b) mod c.
Proof.
  intros Hb Hc. rewrite Z.rem_mul_r by lia.
  rewrite (Z.mul_comm b), Z.div_add by lia.
  rewrite Z.div_small by (apply Z.mod_pos_bound; lia). lia.
Qed.

Lemma div_pow2_scaled (a i j : Z) : 0 <= i -> 0 <= j ->
  (a * 2 ^ j) / 2 ^ (i + j) = a / 2 ^ i.
Proof.
  intros Hi Hj. rewrite Z.pow_add_r by lia.
  apply Z.div_mul_cancel_r; apply Z.pow_nonzero; lia.
Qed.

(** The whole seconds left after the whole minutes: [Math.floor(t % 60)]. *)
Lemma floor_rem_60 (t : float) (m : positive) (e : Z) :
  Prim2SF t = S754_finite false m e -> valid_binary (S754_finite false m e) = true ->
  e <= 0 ->
  JS.Math_floor (JS.rem t 60) = JS.of_Z ((Zpos m / 2 ^ (- e)) mod 60).
Proof.
  intros Ht Hv He.
  cbn [valid_binary] in Hv. unfold bounded in Hv. apply andb_prop in Hv as [Hc _].
  destruct (canonical_cases m e Hc) as (Hlo & Hd & _).
  pose proof (digits2_le_lt m 53 Hd) as Hm.
  unfold JS.rem. rewrite Ht.
  change (Prim2SF 60) with (S754_finite false 8444249301319680 (-47)).
  cbv iota beta. cbn [cond_Zopp].
  set (e0 := Z.min e (-47)).
  assert (He0 : -1074 <= e0 <= -47 /\ e0 <= e) by (subst e0; lia).
  set (b := 2 ^ (- e0)).
  assert (Hb : 0 < b) by (subst b; apply Z.pow_pos_nonneg; lia).
  assert (E60 : Zpos 8444249301319680 * 2 ^ (-47 - e0) = b * 60).
  { subst b. replace (- e0) with (47 + (-47 - e0)) by lia.
    rewrite Z.pow_add_r by lia.
    assert (E : Zpos 8444249301319680 = 2 ^ 47 * 60) by (vm_compute; reflexivity).
    rewrite E. lia. }
  rewrite E60.
  set (A := Zpos m * 2 ^ (e - e0)).
  assert (HA : 0 <= A).
  { subst A. apply Z.mul_nonneg_nonneg; [lia|apply Z.pow_nonneg; lia]. }
  rewrite Z.rem_mod_nonneg by lia.
  assert (HAb : A / b = Zpos m / 2 ^ (- e)).
  { subst A b. replace (- e0) with (- e + (e - e0)) by lia.
    apply div_pow2_scaled; lia. }
  pose proof (mod_mul_div A b 60 Hb ltac:(lia)) as Hk. rewrite HAb in Hk.
  pose proof (Z.mod_pos_bound A (b * 60) ltac:(lia)) as Hr.
  assert (Hr53 : A mod (b * 60) < 2 ^ 53).
  { destruct (Z.le_gt_cases e (-47)) as [Hle|Hgt].
    - assert (E : e0 = e) by (subst e0; lia).
      assert (EA : A = Zpos m) by (subst A; rewrite E, Z.sub_diag; lia).
      pose proof (Z.mod_le A (b * 60) HA ltac:(lia)). lia.
    - assert (E : b = 2 ^ 47) by (subst b e0; f_equal; lia).
      rewrite E in Hr |- *.
      assert (E' : 2 ^ 47 * 60 < 2 ^ 53) by (vm_compute; reflexivity). lia. }
  rewrite <- Hk.
  destruct (A mod (b * 60)) as [|r|r] eqn:Er; [reflexivity| |lia].
  assert (Hdr : Zpos (digits2_pos r) <= 53) by (apply digits2_lt_le; lia).
  destruct (binary_normalize_exact r e0 Hdr ltac:(lia)) as (mz & -> & Hmz & Hfe & Hvz).
  rewrite fexp_eq in *.
  set (fe := Z.max (Zpos (digits2_pos r) + e0 - 53) (-1074)) in *.
  rewrite (Math_floor_finite _ mz fe) by (try apply Prim2SF_SF2Prim; try exact Hvz; lia).
  f_equal. rewrite Hmz. subst b.
  replace (- fe) with (- e0 + (e0 - fe)) by lia.
  apply div_pow2_scaled; lia.
Qed.

End ExactNumbers.

(** ** The floor of a time divided by sixty *)

Section FloorOfQuotient.

Local Open Scope Z_scope.

(** The location that the division computes from the remainder. *)
Lemma new_location_spec (nb k : Z) :
  0 <= k < nb -> new_location nb k = quotient_location k nb.
Proof.
  intros Hk. unfold new_location, new_location_even, new_location_odd, quotient_location.
  destruct (Z.even nb) eqn:Hev; [reflexivity|].
  destruct (k =? 0); [reflexivity|]. f_equal.
  assert (Hodd : Z.odd nb = true) by (rewrite <- Z.negb_even, Hev; reflexivity).
  apply Z.odd_spec in Hodd as [j Hj].
  destruct (Z.compare_spec (2 * k + 1) nb), (Z.compare_spec (2 * k) nb);
    try reflexivity; lia.
Qed.

Lemma holds_quotient_of_loc (n d : Z) :
  0 < d -> 0 <= n ->
  holds_quotient n d (shr_record_of_loc (n / d) (quotient_location (n mod d) d)).
Proof.
  intros Hd Hn.
  destruct (loc_of_shr_record_of_loc (n / d) (quotient_location (n mod d) d)) as [Hl Hm].
  repeat split; assumption.
Qed.

(** One shift to the right halves the quotient and keeps its location. *)
Lemma holds_quotient_shr_1 (n d : Z) (r : shr_record) :
  holds_quotient n d r -> holds_quotient n (2 * d) (shr_1 r).
Proof.
  intros (Hd & Hn & Hm & Hl).
  pose proof (Z.mod_pos_bound n d Hd) as Hrho.
  pose proof (Z.div_pos n d Hn Hd) as Hq.
  assert (Hm2 : shr_m (shr_1 r) = n / (2 * d)).
  { rewrite shr_1_m by lia. rewrite Hm, Z.div_div by lia.
    f_equal. lia. }
  split; [lia|]. split; [exact Hn|]. split; [exact Hm2|].
  rewrite (Z.mul_comm 2 d), Z.rem_mul_r by lia.
  set (rho := n mod d) in *. set (q := n / d) in *.
  pose proof (Z.mod_pos_bound q 2 ltac:(lia)) as Hb.
  unfold quotient_location in *.
  destruct r as [m rb sb]. cbn [shr_m] in *. subst m.
  assert (Hpar : q mod 2 = 0 \/ q mod 2 = 1) by lia.
  destruct q as [|[p|p|]|p]; try lia; cbn [shr_1 loc_of_shr_record] in *.
  - (* 0 *) change (0 mod 2) with 0. rewrite Z.mul_0_r, Z.add_0_r.
    destruct (Z.eqb_spec rho 0) as [E|E].
    + destruct rb, sb; try discriminate. reflexivity.
    + destruct rb, sb; try discriminate; cbn [orb]; f_equal; symmetry;
        apply Z.compare_lt_iff; lia.
  - (* xI *)
    assert (E1 : Zpos p~1 mod 2 = 1).
    { rewrite Pos2Z.inj_xI. rewrite Z.add_comm, Z.mul_comm, Z.mod_add by lia. reflexivity. }
    rewrite E1, Z.mul_1_r.
    destruct (Z.eqb_spec (rho + d) 0) as [E0|E0]; [lia|].
    destruct (Z.eqb_spec rho 0) as [E|E].
    + destruct rb, sb; try discriminate. cbn [orb]. f_equal. symmetry.
      apply Z.compare_eq_iff. lia.
    + destruct rb, sb; try discriminate; cbn [orb]; f_equal; symmetry;
        apply Z.compare_gt_iff; lia.
  - (* xO *)
    assert (E1 : Zpos p~0 mod 2 = 0).
    { rewrite Pos2Z.inj_xO. rewrite Z.mul_comm, Z.mod_mul by lia. reflexivity. }
    rewrite E1, Z.mul_0_r, Z.add_0_r.
    destruct (Z.eqb_spec rho 0) as [E|E].
    + destruct rb, sb; try discriminate. reflexivity.
    + destruct rb, sb; try discriminate; cbn [orb]; f_equal; symmetry;
        apply Z.compare_lt_iff; lia.
  - (* 1 *)
    change (1 mod 2) with 1. rewrite Z.mul_1_r.
    destruct (Z.eqb_spec (rho + d) 0) as [E0|E0]; [lia|].
    destruct (Z.eqb_spec rho 0) as [E|E].
    + destruct rb, sb; try discriminate. cbn [orb]. f_equal. symmetry.
      apply Z.compare_eq_iff. lia.
    + destruct rb, sb; try discriminate; cbn [orb]; f_equal; symmetry;
        apply Z.compare_gt_iff; lia.
Qed.

Lemma holds_quotient_iter (k : nat) : forall n d r,
  holds_quotient n d r -> holds_quotient n (d * 2 ^ Z.of_nat k) (Nat.iter k shr_1 r).
Proof.
  induction k as [|k IH]; intros n d r H.
  - cbn [Nat.iter]. change (2 ^ Z.of_nat 0) with 1. rewrite Z.mul_1_r. exact H.
  - rewrite Nat.iter_succ_r.
    replace (d * 2 ^ Z.of_nat (S k)) with (2 * d * 2 ^ Z.of_nat k)
      by (rewrite Nat2Z.inj_succ, Z.pow_succ_r by lia; lia).
    apply IH, holds_quotient_shr_1, H.
Qed.

(** [shr_fexp] shifts by the number of digits in excess of the precision. *)
Lemma shr_fexp_spec (m e : Z) (l : location) :
  let p := Z.max 0 (fexp prec emax (Zdigits2 m + e) - e) in
  shr_fexp prec emax m e l
  = (Nat.iter (Z.to_nat p) shr_1 (shr_record_of_loc m l), e + p).
Proof.
  cbv zeta. unfold shr_fexp, shr.
  destruct (fexp prec emax (Zdigits2 m + e) - e) as [|p|p] eqn:E.
  - cbn. rewrite Z.add_0_r. reflexivity.
  - rewrite iter_pos_nat. rewrite Z.max_r by lia.
    rewrite Z2Nat.inj_pos. reflexivity.
  - rewrite Z.max_l by lia. cbn. rewrite Z.add_0_r. reflexivity.
Qed.

Lemma round_nearest_even_cases (m rho d : Z) :
  round_nearest_even m (quotient_location rho d) = m
  \/ (round_nearest_even m (quotient_location rho d) = m + 1 /\ d <= 2 * rho).
Proof.
  unfold quotient_location, round_nearest_even.
  destruct (rho =? 0); [left; reflexivity|].
  destruct (Z.compare_spec (2 * rho) d); [| left; reflexivity | right; split; lia].
  destruct (Z.even m); [left; reflexivity | right; split; [reflexivity | lia]].
Qed.

Lemma Zdigits2_lt_le (m k : Z) : 0 <= k -> 0 <= m < 2 ^ k -> Zdigits2 m <= k.
Proof.
  intros Hk [H0 Hm]. destruct m as [|p|p]; cbn [Zdigits2]; try lia.
  apply digits2_lt_le; assumption.
Qed.

(** The floor of a number that [binary_round_aux] produced from a mantissa
    whose rounded value [m2 * 2^e1] has the integer part [M]. *)
Lemma floor_of_rounded (x : float) (mz ez : Z) (lz : location) (M : Z) :
  0 <= mz ->
  Prim2SF x = binary_round_aux prec emax false mz ez lz ->
  let e1 := snd (shr_fexp prec emax mz ez lz) in
  let r1 := fst (shr_fexp prec emax mz ez lz) in
  let m2 := round_nearest_even (shr_m r1) (loc_of_shr_record r1) in
  e1 < 0 -> 0 <= m2 -> m2 / 2 ^ (- e1) = M -> M < 2 ^ 52 ->
  JS.Math_floor x = JS.of_Z M.
Proof.
  intros Hmz Hx. cbv zeta. unfold binary_round_aux in Hx.
  destruct (shr_fexp prec emax mz ez lz) as [r1 e1]. cbn [fst snd].
  set (m2 := round_nearest_even (shr_m r1) (loc_of_shr_record r1)) in *.
  intros He1 Hm2 HM HM52.
  rewrite shr_fexp_spec in Hx. cbv zeta in Hx.
  set (p := Z.max 0 (fexp prec emax (Zdigits2 m2 + e1) - e1)) in *.
  rewrite shr_iter_m in Hx
    by (destruct (loc_of_shr_record_of_loc m2 loc_Exact) as [_ ->]; exact Hm2).
  destruct (loc_of_shr_record_of_loc m2 loc_Exact) as [_ Hrm]. rewrite Hrm in Hx.
  rewrite Z2Nat.id in Hx by (subst p; lia).
  assert (HQ : 0 < 2 ^ (- e1)) by (apply Z.pow_pos_nonneg; lia).
  assert (Hlt : m2 < 2 ^ (52 - e1)).
  { replace (52 - e1) with (52 + - e1) by lia. rewrite Z.pow_add_r by lia.
    pose proof (Z.mul_succ_div_gt m2 (2 ^ (- e1)) HQ) as H. rewrite HM in H.
    apply Z.lt_le_trans with (1 := H). rewrite Z.mul_comm.
    apply Z.mul_le_mono_nonneg_r; lia. }
  pose proof (Zdigits2_lt_le m2 (52 - e1) ltac:(lia) (conj Hm2 Hlt)) as Hd.
  assert (Hp : 0 <= p /\ e1 + p < 0) by (subst p; rewrite fexp_eq; lia).
  assert (Hfl : m2 / 2 ^ p / 2 ^ (- (e1 + p)) = M).
  { rewrite Z.div_div by (try apply Z.pow_pos_nonneg; lia).
    rewrite <- Z.pow_add_r by lia. replace (p + - (e1 + p)) with (- e1) by lia.
    exact HM. }
  destruct (m2 / 2 ^ p) as [|m3|m3] eqn:E3.
  - rewrite <- (SF2Prim_Prim2SF x). unfold JS.Math_floor.
    rewrite Prim2SF_SF2Prim by (rewrite Hx; reflexivity).
    rewrite Hx. rewrite <- Hfl. reflexivity.
  - replace (e1 + p <=? emax - prec) with true in Hx
      by (symmetry; apply Z.leb_le; change (emax - prec) with 971; lia).
    rewrite (Math_floor_finite x m3 (e1 + p) Hx) by lia.
    rewrite Hfl. reflexivity.
  - pose proof (Z.div_pos m2 (2 ^ p) Hm2 ltac:(apply Z.pow_pos_nonneg; lia)). lia.
Qed.

Lemma div_eucl_div_mod (a b : Z) : Z.div_eucl a b = (a / b, a mod b).
Proof. unfold Z.div, Z.modulo. destruct (Z.div_eucl a b); reflexivity. Qed.

(** The whole minutes: [Math.floor(t / 60)].  The division rounds, but
    never up to the next whole minute. *)
Lemma floor_div_60 (t : float) (m : positive) (e : Z) :
  Prim2SF t = S754_finite false m e -> valid_binary (S754_finite false m e) = true ->
  e <= 0 ->
  JS.Math_floor (t / 60) = JS.of_Z (Zpos m / 2 ^ (- e) / 60).
Proof.
  intros Ht Hv He.
  cbn [valid_binary] in Hv. unfold bounded in Hv. apply andb_prop in Hv as [Hc _].
  destruct (canonical_cases m e Hc) as (Hlo & Hd & Hnorm).
  pose proof (digits2_le_lt m 53 Hd) as Hm.
  pose proof (digits2_pos_bounds m) as [Hml _].
  set (dm := Zpos (digits2_pos m)) in *.
  pose proof (div_spec t 60) as Hq. rewrite Ht in Hq.
  change (Prim2SF 60) with (S754_finite false 8444249301319680 (-47)) in Hq.
  unfold SF64div, SFdiv in Hq.
  set (m60 := 8444249301319680%positive) in *.
  assert (E60 : Zpos m60 = 60 * 2 ^ 47) by (vm_compute; reflexivity).
  assert (Ed60 : Zdigits2 (Zpos m60) = 53) by (vm_compute; reflexivity).
  assert (H60 : 2 ^ 52 <= Zpos m60 < 2 ^ 53) by (rewrite E60; split; vm_compute; congruence).
  unfold SFdiv_core_binary in Hq. cbv zeta in Hq. rewrite Ed60 in Hq.
  cbn [Zdigits2] in Hq. fold dm in Hq. rewrite fexp_eq in Hq.
  change IntDef.Z.min with Z.min in Hq. change IntDef.Z.div_eucl with Z.div_eucl in Hq.
  change IntDef.Z.shiftl with Z.shiftl in Hq.
  set (e' := Z.min (Z.max (dm + e - (53 + -47) - 53) (-1074)) (e - -47)) in *.
  set (s := e - -47 - e') in *.
  assert (Hs : 0 <= s) by (subst s e'; lia).
  set (m' := match s with 0 => Zpos m | Zpos _ => Z.shiftl (Zpos m) s | Zneg _ => 0 end) in *.
  assert (Hm' : m' = Zpos m * 2 ^ s).
  { subst m'. destruct s as [|p|p] eqn:E; [lia| |lia]. apply Z.shiftl_mul_pow2. lia. }
  clearbody m'. rewrite div_eucl_div_mod in Hq. cbn [xorb] in Hq.
  set (sc := 2 ^ s) in *.
  assert (Hsc : 0 < sc) by (subst sc; apply Z.pow_pos_nonneg; lia).
  assert (Hm'0 : 0 <= m') by (rewrite Hm'; lia).
  pose proof (Z.mod_pos_bound m' (Zpos m60) ltac:(lia)) as Hr.
  rewrite new_location_spec in Hq by exact Hr.
  (* the digits of the quotient *)
  set (q := m' / Zpos m60) in *.
  assert (Hq0 : 0 <= q) by (subst q; apply Z.div_pos; lia).
  assert (Hq2 : q < 2 ^ (s + 1)).
  { pose proof (Z.mul_div_le m' (Zpos m60) ltac:(lia)) as H1. fold q in H1.
    rewrite Z.pow_add_r by lia. fold sc. change (2 ^ 1) with 2.
    assert (q * 2 ^ 52 <= Zpos m60 * q) by (rewrite Z.mul_comm; apply Z.mul_le_mono_nonneg_r; lia).
    assert (Zpos m * sc < 2 ^ 53 * sc) by (apply Z.mul_lt_mono_pos_r; lia).
    assert (E53 : 2 ^ 53 = 2 * 2 ^ 52) by reflexivity.
    assert (q * 2 ^ 52 < sc * 2 * 2 ^ 52) by lia.
    apply Z.mul_lt_mono_pos_r with (p := 2 ^ 52); lia. }
  pose proof (Zdigits2_lt_le q (s + 1) ltac:(lia) (conj Hq0 Hq2)) as Hdq.
  (* the rounding *)
  apply (floor_of_rounded _ _ _ _ (Zpos m / 2 ^ (- e) / 60) Hq0 Hq).
  - rewrite shr_fexp_spec. cbv zeta. cbn [snd]. rewrite fexp_eq. subst s e'. lia.
  - rewrite shr_fexp_spec. cbv zeta. cbn [fst].
    set (p := Z.max 0 (fexp prec emax (Zdigits2 q + e') - e')).
    pose proof (holds_quotient_iter (Z.to_nat p) _ _ _
                  (holds_quotient_of_loc m' (Zpos m60) ltac:(lia) Hm'0))
      as (HD & _ & Hm1 & Hl1).
    fold q in Hm1, Hl1. rewrite Hm1, Hl1.
    destruct (round_nearest_even_cases (m' / (Zpos m60 * 2 ^ Z.of_nat (Z.to_nat p)))
                (m' mod (Zpos m60 * 2 ^ Z.of_nat (Z.to_nat p)))
                (Zpos m60 * 2 ^ Z.of_nat (Z.to_nat p))) as [->|[-> _]].
    + apply Z.div_pos; lia.
    + pose proof (Z.div_pos m' _ Hm'0 HD). lia.
  - rewrite !shr_fexp_spec. cbv zeta. cbn [fst snd].
    set (p := Z.max 0 (fexp prec emax (Zdigits2 q + e') - e')).
    assert (Hp : 0 <= p) by (subst p; lia).
    assert (He1 : e' + p <= -5 /\ (-52 <= e -> e' + p <= e - 5 /\ s = 53 /\ p <= 1)).
    { subst p. rewrite fexp_eq. subst s e'. lia. }
    pose proof (holds_quotient_iter (Z.to_nat p) _ _ _
                  (holds_quotient_of_loc m' (Zpos m60) ltac:(lia) Hm'0))
      as (HD & _ & Hm1 & Hl1).
    fold q in Hm1, Hl1. rewrite Hm1, Hl1. rewrite Z2Nat.id in * by exact Hp.
    set (D := Zpos m60 * 2 ^ p) in *.
    set (Q := 2 ^ (- (e' + p))).
    set (P := 2 ^ (- e)).
    assert (HQ : 32 <= Q).
    { subst Q. change 32 with (2 ^ 5). apply Z.pow_le_mono_r; lia. }
    assert (HP : 0 < P) by (subst P; apply Z.pow_pos_nonneg; lia).
    (* the divisor at the final exponent *)
    assert (HDQ : D * Q = 60 * (P * sc)).
    { subst D Q P sc. rewrite E60, <- !Z.mul_assoc, <- !Z.pow_add_r by lia.
      f_equal. f_equal. subst s. lia. }
    set (M := Zpos m / P / 60).
    assert (Hfl : m' / D / Q = M).
    { rewrite Z.div_div, HDQ, Hm' by lia. fold sc.
      replace (60 * (P * sc)) with (P * 60 * sc) by lia.
      rewrite Z.div_mul_cancel_r by lia.
      subst M. rewrite Z.div_div by lia. reflexivity. }
    set (m1 := m' / D) in *. set (rho := m' mod D).
    pose proof (Z.mod_pos_bound m' D HD) as Hrho. fold rho in Hrho.
    pose proof (Z.div_mod m' D ltac:(lia)) as Hdm. fold m1 rho in Hdm.
    destruct (round_nearest_even_cases m1 rho D) as [->|[-> Hup]]; [exact Hfl|].
    (* rounding up stays below the next whole minute *)
    assert (Hbr : M * Q <= m1 < (M + 1) * Q).
    { rewrite <- Hfl. pose proof (Z.mul_div_le m1 Q ltac:(lia)).
      pose proof (Z.mul_succ_div_gt m1 Q ltac:(lia)). lia. }
    assert (HM0 : 0 <= M).
    { subst M. apply Z.div_pos; [apply Z.div_pos|]; lia. }
    assert (Hne : m1 + 1 <> (M + 1) * Q).
    { intros Heq.
      assert (Hk : D - rho = sc * (60 * P * (M + 1) - Zpos m)).
      { assert (D * (m1 + 1) = (M + 1) * (60 * (P * sc)))
          by (rewrite Heq, <- HDQ; ring).
        rewrite Hm' in Hdm. fold sc in Hdm.
        replace (sc * (60 * P * (M + 1) - Z.pos m))
          with ((M + 1) * (60 * (P * sc)) - Zpos m * sc) by ring.
        lia. }
      destruct (Z.lt_ge_cases (Zpos m) P) as [Htiny|Hbig].
      - (* no whole second yet *)
        assert (HM : M = 0).
        { subst M. rewrite (Z.div_small (Zpos m) P) by lia. reflexivity. }
        rewrite HM in Hk.
        assert (Zpos m * sc < P * sc) by (apply Z.mul_lt_mono_pos_r; lia).
        assert (32 * D <= D * Q)
          by (rewrite (Z.mul_comm D Q); apply Z.mul_le_mono_nonneg_r; lia).
        assert (0 < P * sc) by (apply Z.mul_pos_pos; lia).
        replace (sc * (60 * P * (0 + 1) - Z.pos m)) with (60 * (P * sc) - Zpos m * sc) in Hk by ring.
        lia.
      - (* at least one whole second: the time is a normal number *)
        assert (He52 : -52 <= e).
        { destruct (Z.le_gt_cases (-52) e) as [|Hlt]; [assumption|exfalso].
          assert (2 ^ 53 <= P) by (subst P; apply Z.pow_le_mono_r; lia). lia. }
        destruct He1 as [_ He1]. destruct (He1 He52) as (_ & Es & Hp1).
        assert (HD2 : D < 2 * sc).
        { subst D sc. rewrite Es.
          assert (2 ^ p <= 2 ^ 1) by (apply Z.pow_le_mono_r; lia).
          change (2 ^ 1) with 2 in *.
          assert (Zpos m60 * 2 ^ p <= Zpos m60 * 2)
            by (apply Z.mul_le_mono_nonneg_l; lia).
          assert (E54 : 2 * 2 ^ 53 = 2 * 2 ^ 53) by reflexivity.
          assert (Zpos m60 * 2 < 2 * 2 ^ 53) by lia. lia. }
        set (K := 60 * P * (M + 1) - Zpos m) in *.
        assert (0 < sc * K < sc) by lia.
        destruct (Z.le_gt_cases K 0) as [HK|HK].
        + assert (sc * K <= 0) by (apply Z.mul_nonneg_nonpos; lia). lia.
        + assert (sc * 1 <= sc * K) by (apply Z.mul_le_mono_nonneg_l; lia). lia. }
    symmetry. apply Z.div_unique_pos with (r := m1 + 1 - M * Q); lia.
  - assert (HP : 0 < 2 ^ (- e)) by (apply Z.pow_pos_nonneg; lia).
    assert (Zpos m / 2 ^ (- e) < 2 ^ 53).
    { apply Z.div_lt_upper_bound; [lia|].
      assert (2 ^ 53 * 1 <= 2 ^ (- e) * 2 ^ 53); [|lia].
      rewrite (Z.mul_comm (2 ^ (- e))). apply Z.mul_le_mono_nonneg_l; lia. }
    apply Z.div_lt_upper_bound; [lia|].
    assert (E : 2 ^ 53 < 60 * 2 ^ 52) by (vm_compute; reflexivity). lia.
Qed.

End FloorOfQuotient.

(** ** Whole numbers as strings *)

Section DecimalFacts.

Local Open Scope string_scope.
Local Open Scope Z_scope.

Lemma string_app_assoc (a b c : string) : (a ++ b) ++ c = a ++ (b ++ c).
Proof. induction a as [|x a IH]; cbn; [reflexivity|rewrite IH; reflexivity]. Qed.

Lemma digits_fuel_acc (f : nat) : forall n acc,
  JS.digits_fuel f n acc = JS.digits_fuel f n "" ++ acc.
Proof.
  induction f as [|f IH]; intros n acc; cbn [JS.digits_fuel]; [reflexivity|].
  destruct (n <? 10); [reflexivity|].
  rewrite IH, (IH _ (String _ "")), string_app_assoc. reflexivity.
Qed.

(** Fuel beyond the number of digits is not used. *)
Lemma digits_fuel_enough (f1 : nat) : forall f2 n acc,
  0 <= n < 10 ^ Z.of_nat (S f1) -> n < 10 ^ Z.of_nat (S f2) ->
  JS.digits_fuel (S f1) n acc = JS.digits_fuel (S f2) n acc.
Proof.
  induction f1 as [|f1 IH]; intros f2 n acc H1 H2.
  - cbn [JS.digits_fuel]. change (10 ^ Z.of_nat 1) with 10 in H1.
    replace (n <? 10) with true by (symmetry; apply Z.ltb_lt; lia). reflexivity.
  - cbn [JS.digits_fuel]. fold (JS.digits_fuel (S f1)).
    destruct (Z.ltb_spec n 10) as [Hlt|Hge]; [reflexivity|].
    destruct f2 as [|f2].
    + change (10 ^ Z.of_nat 1) with 10 in H2. lia.
    + rewrite Nat2Z.inj_succ, Z.pow_succ_r in H1, H2 by lia.
      apply IH.
      * split; [apply Z.div_pos; lia|]. apply Z.div_lt_upper_bound; lia.
      * apply Z.div_lt_upper_bound; lia.
Qed.

Lemma decimal_fuel (n : Z) (f : nat) :
  0 <= n < 10 ^ Z.of_nat (S f) -> JS.decimal n = JS.digits_fuel (S f) n "".
Proof.
  intros H. unfold JS.decimal. apply digits_fuel_enough; [|lia].
  split; [lia|]. rewrite Nat2Z.inj_succ, Z2Nat.id by apply Z.log2_nonneg.
  destruct (Z.eq_dec n 0) as [->|Hn]; [cbn; lia|].
  pose proof (Z.log2_spec n ltac:(lia)) as [_ Hu].
  apply Z.lt_le_trans with (1 := Hu).
  apply Z.pow_le_mono_l. lia.
Qed.

Lemma decimal_below (n : Z) : 0 <= n -> n < 10 ^ Z.of_nat (S (Z.to_nat (Z.log2 n))).
Proof.
  intros H0. rewrite Nat2Z.inj_succ, Z2Nat.id by apply Z.log2_nonneg.
  destruct (Z.eq_dec n 0) as [->|Hn]; [cbn; lia|].
  pose proof (Z.log2_spec n ltac:(lia)) as [_ Hu].
  apply Z.lt_le_trans with (1 := Hu).
  apply Z.pow_le_mono_l. lia.
Qed.

Lemma decimal_mul10 (s : Z) : 1 <= s -> JS.decimal (10 * s) = JS.decimal s ++ "0".
Proof.
  intros Hs. pose proof (decimal_below s ltac:(lia)) as Hb.
  set (f := Z.to_nat (Z.log2 s)) in *.
  rewrite (decimal_fuel (10 * s) (S f))
    by (rewrite Nat2Z.inj_succ, Z.pow_succ_r by lia; lia).
  rewrite (decimal_fuel s f) by lia.
  cbn [JS.digits_fuel]. fold (JS.digits_fuel (S f)).
  replace (10 * s <? 10) with false by (symmetry; apply Z.ltb_ge; lia).
  rewrite (Z.mul_comm 10 s), Z.mod_mul, Z.div_mul by lia.
  exact (digits_fuel_acc (S f) s "0").
Qed.

Lemma decimal_zeros (j : nat) : forall s,
  1 <= s -> JS.decimal (s * 10 ^ Z.of_nat j) = JS.decimal s ++ JS.zeros j.
Proof.
  induction j as [|j IH]; intros s Hs.
  - change (10 ^ Z.of_nat 0) with 1. rewrite Z.mul_1_r. cbn [JS.zeros].
    induction (JS.decimal s) as [|c r IHr]; cbn; [reflexivity|rewrite <- IHr; reflexivity].
  - rewrite Nat2Z.inj_succ, Z.pow_succ_r by lia.
    replace (s * (10 * 10 ^ Z.of_nat j)) with (10 * s * 10 ^ Z.of_nat j) by lia.
    rewrite IH by lia. rewrite decimal_mul10 by lia.
    rewrite string_app_assoc. reflexivity.
Qed.

End DecimalFacts.

Section IntegerToString.

Local Open Scope string_scope.
Local Open Scope Z_scope.

Lemma Qle_bool_inject (a b : Z) : Qle_bool (inject_Z a) (inject_Z b) = (a <=? b).
Proof. unfold Qle_bool, inject_Z. cbn. rewrite !Z.mul_1_r. reflexivity. Qed.

Lemma pow10_nonneg (j : Z) : 0 <= j -> JS.pow10 j = inject_Z (10 ^ j).
Proof.
  intros H. unfold JS.pow10.
  replace (0 <=? j) with true by (symmetry; apply Z.leb_le; exact H). reflexivity.
Qed.

(** Half the gap to a neighbour of a number with a negative exponent is
    positive and at most a half. *)
Lemma half_gap_bounds (j : Z) : j <= -1 -> (0 < JS.exact 1 j /\ JS.exact 1 j <= 1 # 2)%Q.
Proof.
  intros Hj. unfold JS.exact.
  replace (0 <=? j) with false by (symmetry; apply Z.leb_gt; lia).
  assert (Hp : 2 ^ 1 <= 2 ^ (- j)) by (apply Z.pow_le_mono_r; lia).
  change (2 ^ 1) with 2 in Hp.
  destruct (2 ^ (- j)) as [|p|p]; try lia.
  unfold Qdiv, Qinv, Qmult, Qlt, Qle, inject_Z. cbn. lia.
Qed.

Section OneInteger.

Variables (mm : positive) (ee M : Z).
Hypothesis Hee : ee <= 0.
Hypothesis Hmm : Zpos mm = M * 2 ^ (- ee).
Hypothesis HM : 1 <= M.

Lemma exact_integer : (JS.exact mm ee == inject_Z M)%Q.
Proof.
  unfold JS.exact. destruct (Z.leb_spec 0 ee) as [H|H].
  - replace ee with 0 in * by lia. rewrite Hmm. cbn. rewrite !Z.mul_1_r. reflexivity.
  - rewrite Hmm, inject_Z_mult. apply Qdiv_mult_l.
    assert (0 < 2 ^ (- ee)) by (apply Z.pow_pos_nonneg; lia).
    unfold Qeq, inject_Z. cbn. lia.
Qed.

(** Of the integers, only the value itself reads back as the number. *)
Lemma rounds_to_integer (X : Z) : JS.rounds_to mm ee (inject_Z X) = (X =? M).
Proof.
  pose proof exact_integer as Hv.
  assert (Hg1 : (0 < JS.lower_half_gap mm ee /\ JS.lower_half_gap mm ee <= 1 # 2)%Q).
  { unfold JS.lower_half_gap. destruct (_ && _); apply half_gap_bounds; lia. }
  pose proof (half_gap_bounds (ee - 1) ltac:(lia)) as Hg2.
  unfold JS.rounds_to. cbv zeta.
  set (v := JS.exact mm ee) in *. set (g1 := JS.lower_half_gap mm ee) in *.
  set (g2 := JS.exact 1 (ee - 1)) in *.
  destruct Hg1 as [Hg1 Hg1']. destruct Hg2 as [Hg2 Hg2'].
  destruct (Z.eqb_spec X M) as [->|Hne].
  - assert (A : Qle_bool (v - g1) (inject_Z M) = true) by (apply Qle_bool_iff; lra).
    assert (B : Qle_bool (inject_Z M) (v + g2) = true) by (apply Qle_bool_iff; lra).
    assert (C : Qle_bool (inject_Z M) (v - g1) = false).
    { destruct (Qle_bool (inject_Z M) (v - g1)) eqn:E; [|reflexivity].
      apply Qle_bool_iff in E. lra. }
    assert (D : Qle_bool (v + g2) (inject_Z M) = false).
    { destruct (Qle_bool (v + g2) (inject_Z M)) eqn:E; [|reflexivity].
      apply Qle_bool_iff in E. lra. }
    rewrite A, B, C, D. destruct (Z.even (Zpos mm)); reflexivity.
  - destruct (Z.lt_ge_cases X M) as [Hlt|Hge].
    + assert (Hx : (inject_Z X + 1 <= inject_Z M)%Q).
      { change 1%Q with (inject_Z 1). rewrite <- inject_Z_plus, <- Zle_Qle. lia. }
      assert (A : Qle_bool (v - g1) (inject_Z X) = false).
      { destruct (Qle_bool (v - g1) (inject_Z X)) eqn:E; [|reflexivity].
        apply Qle_bool_iff in E. lra. }
      assert (C : Qle_bool (inject_Z X) (v - g1) = true) by (apply Qle_bool_iff; lra).
      rewrite A, C. destruct (Z.even (Zpos mm)); reflexivity.
    + assert (Hx : (inject_Z M + 1 <= inject_Z X)%Q).
      { change 1%Q with (inject_Z 1). rewrite <- inject_Z_plus, <- Zle_Qle. lia. }
      assert (B : Qle_bool (inject_Z X) (v + g2) = false).
      { destruct (Qle_bool (inject_Z X) (v + g2)) eqn:E; [|reflexivity].
        apply Qle_bool_iff in E. lra. }
      assert (D : Qle_bool (v + g2) (inject_Z X) = true) by (apply Qle_bool_iff; lra).
      rewrite B, D. cbn [negb]. rewrite !andb_false_r.
      destruct (Z.even (Zpos mm)); reflexivity.
Qed.

(** The candidate with [k] digits, for a number of [n] digits: the value
    without its last [n - k] digits, if those are zeros. *)
Lemma candidate_integer (n k : Z) :
  k <= n ->
  JS.candidate mm ee n k
  = if M / 10 ^ (n - k) * 10 ^ (n - k) =? M then Some (M / 10 ^ (n - k), n) else None.
Proof.
  intros Hk. unfold JS.candidate. cbv zeta.
  rewrite pow10_nonneg by lia.
  set (T := 10 ^ (n - k)).
  assert (HT : 0 < T) by (subst T; apply Z.pow_pos_nonneg; lia).
  assert (Es : Qfloor (JS.exact mm ee / inject_Z T) = M / T).
  { rewrite Zdiv_Qdiv. apply Qfloor_comp. rewrite exact_integer. reflexivity. }
  rewrite Es. set (s := M / T).
  change (inject_Z s * inject_Z T)%Q with (inject_Z (s * T)).
  change (inject_Z (s + 1) * inject_Z T)%Q with (inject_Z ((s + 1) * T)).
  rewrite !rounds_to_integer.
  pose proof (Z.mul_succ_div_gt M T HT) as Hgt. fold s in Hgt.
  replace ((s + 1) * T =? M) with false by (symmetry; apply Z.eqb_neq; lia).
  destruct (s * T =? M); reflexivity.
Qed.

Lemma shortest_integer (n : Z) (fuel : nat) : forall k,
  1 <= k <= n -> n - k < Z.of_nat fuel ->
  exists s k', JS.shortest fuel mm ee n k = (s, n, k')
               /\ k' <= n /\ s * 10 ^ (n - k') = M.
Proof.
  induction fuel as [|fuel IH]; intros k Hk Hf; [lia|].
  cbn [JS.shortest]. rewrite candidate_integer by lia.
  destruct (Z.eqb_spec (M / 10 ^ (n - k) * 10 ^ (n - k)) M) as [E|E].
  - exists (M / 10 ^ (n - k)), k. repeat split; [lia|exact E].
  - destruct (Z.eq_dec k n) as [->|Hne].
    + exfalso. apply E. rewrite Z.sub_diag. change (10 ^ 0) with 1.
      rewrite Z.div_1_r. lia.
    + apply IH; lia.
Qed.

Lemma magnitude_up_stop (fuel : nat) (j : Z) :
  0 <= j -> M < 10 ^ j -> JS.magnitude_up fuel (JS.exact mm ee) j = j.
Proof.
  intros Hj H. destruct fuel as [|fuel]; [reflexivity|]. cbn [JS.magnitude_up].
  rewrite pow10_nonneg, exact_integer, Qle_bool_inject by lia.
  replace (10 ^ j <=? M) with false by (symmetry; apply Z.leb_gt; exact H).
  reflexivity.
Qed.

Lemma magnitude_up_integer (fuel : nat) : forall j,
  0 <= j -> 10 ^ j <= M -> M < 10 ^ (j + Z.of_nat fuel) ->
  let n := JS.magnitude_up fuel (JS.exact mm ee) j in
  j < n /\ 10 ^ (n - 1) <= M < 10 ^ n.
Proof.
  induction fuel as [|fuel IH]; intros j Hj Hlo Hhi; cbv zeta.
  - rewrite Z.add_0_r in Hhi. lia.
  - cbn [JS.magnitude_up].
    rewrite pow10_nonneg, exact_integer, Qle_bool_inject by lia.
    replace (10 ^ j <=? M) with true by (symmetry; apply Z.leb_le; exact Hlo).
    destruct (Z.le_gt_cases (10 ^ (j + 1)) M) as [Hle|Hgt].
    + destruct (IH (j + 1) ltac:(lia) Hle) as [H1 H2].
      { replace (j + 1 + Z.of_nat fuel) with (j + Z.of_nat (S fuel)) by lia. exact Hhi. }
      split; [lia|exact H2].
    + rewrite magnitude_up_stop by lia.
      replace (j + 1 - 1) with j by lia. split; lia.
Qed.

Lemma magnitude_integer :
  M < 10 ^ 16 ->
  let n := JS.magnitude (JS.exact mm ee) in
  1 <= n <= 16 /\ 10 ^ (n - 1) <= M < 10 ^ n.
Proof.
  intros H16. cbv zeta. unfold JS.magnitude.
  assert (H400 : M < 10 ^ (0 + Z.of_nat 400)).
  { apply Z.lt_le_trans with (1 := H16). apply Z.pow_le_mono_r; lia. }
  destruct (magnitude_up_integer 400 0 ltac:(lia) ltac:(change (10 ^ 0) with 1; lia) H400)
    as [Hn [Hlo Hhi]].
  set (n := JS.magnitude_up 400 (JS.exact mm ee) 0) in *.
  assert (E : JS.magnitude_down 400 (JS.exact mm ee) n = n).
  { change 400%nat with (S 399). cbn [JS.magnitude_down].
    rewrite pow10_nonneg, exact_integer, Qle_bool_inject by lia.
    replace (10 ^ (n - 1) <=? M) with true by (symmetry; apply Z.leb_le; exact Hlo).
    reflexivity. }
  rewrite E. split; [|split; assumption].
  split; [lia|].
  destruct (Z.le_gt_cases n 16) as [|Hgt]; [assumption|exfalso].
  assert (10 ^ 16 <= 10 ^ (n - 1)) by (apply Z.pow_le_mono_r; lia). lia.
Qed.

Lemma shortest_render_integer :
  M < 10 ^ 16 ->
  (let '(s, n, k) := JS.shortest 17 mm ee (JS.magnitude (JS.exact mm ee)) 1 in
   JS.render s n k) = JS.decimal M.
Proof.
  intros H16. destruct (magnitude_integer H16) as [Hn [Hlo Hhi]].
  set (n := JS.magnitude (JS.exact mm ee)) in *.
  destruct (shortest_integer n 17 1 ltac:(lia) ltac:(lia)) as (s & k' & -> & Hk & Hs).
  unfold JS.render.
  replace ((-5 <=? n) && (n <=? 21))%bool with true
    by (symmetry; apply andb_true_intro; split; apply Z.leb_le; lia).
  replace (k' <=? n) with true by (symmetry; apply Z.leb_le; lia).
  assert (H10 : 0 < 10 ^ (n - k')) by (apply Z.pow_pos_nonneg; lia).
  set (j := Z.to_nat (n - k')).
  assert (Ej : n - k' = Z.of_nat j) by (subst j; lia).
  rewrite Ej in Hs, H10. rewrite <- Hs.
  symmetry. apply decimal_zeros. nia.
Qed.

End OneInteger.

(** A whole number below [2^53] prints as its decimal digits. *)
Lemma toString_of_Z (M : Z) :
  0 <= M < 2 ^ 53 -> JS.Number_toString (JS.of_Z M) = JS.decimal M.
Proof.
  intros [H0 H53]. destruct M as [|Mp|Mp]; [reflexivity| |lia].
  assert (Hd : Zpos (digits2_pos Mp) <= 53) by (apply digits2_lt_le; lia).
  destruct (binary_normalize_exact Mp 0 Hd ltac:(lia)) as (mz & Hn & Hmz & Hfe & Hv).
  unfold JS.Number_toString, JS.of_Z. rewrite Hn, Prim2SF_SF2Prim by exact Hv.
  set (ee := fexp prec emax (Zpos (digits2_pos Mp) + 0)) in *.
  assert (H16 : Zpos Mp < 10 ^ 16).
  { apply Z.lt_trans with (1 := H53). vm_compute. reflexivity. }
  pose proof (shortest_render_integer mz ee (Zpos Mp) ltac:(lia)
                ltac:(rewrite Hmz; f_equal; f_equal; lia) ltac:(lia) H16) as H.
  destruct (JS.shortest 17 mz ee (JS.magnitude (JS.exact mz ee)) 1) as [[s n] k].
  rewrite H. reflexivity.
Qed.

End IntegerToString.

(** ** The format of a time *)

(** The sixty values of the seconds with their padding, checked one by one. *)
Lemma seconds_checked :
  forallb (fun k =>
             String.eqb
               ((if (JS.of_Z (Z.of_nat k) <? 10)%float then "0" else "")
                ++ JS.Number_toString (JS.of_Z (Z.of_nat k)))%string
               (two_digits (Z.of_nat k)))
          (seq 0 60) = true.
Proof. vm_compute. reflexivity. Qed.

Section WholeSeconds.

Local Open Scope Z_scope.

Lemma canonical_of_valid (s : bool) (m : positive) (e : Z) :
  valid_binary (S754_finite s m e) = true -> canonical_mantissa prec emax m e = true.
Proof. cbn [valid_binary]. unfold bounded. intros H. apply andb_prop in H as [H _]. exact H. Qed.

(** A time with mantissa [m] and exponent [e <= 0] is printed as its whole
    seconds [floor (m * 2^e)] are. *)
Lemma formatTime_floor (t : float) (m : positive) (e : Z) :
  Prim2SF t = S754_finite false m e -> e <= 0 ->
  formatTime t = M_SS (Zpos m / 2 ^ (- e)).
Proof.
  intros Ht He. pose proof (Prim2SF_valid t) as Hv. rewrite Ht in Hv.
  pose proof (canonical_of_valid _ _ _ Hv) as Hc.
  destruct (canonical_cases m e Hc) as (_ & Hd & _).
  pose proof (digits2_le_lt m 53 Hd) as Hm.
  unfold formatTime. cbv zeta.
  rewrite (floor_div_60 t m e Ht Hv He), (floor_rem_60 t m e Ht Hv He).
  set (W := Zpos m / 2 ^ (- e)).
  assert (HP : 0 < 2 ^ (- e)) by (apply Z.pow_pos_nonneg; lia).
  assert (HW : 0 <= W < 2 ^ 53).
  { subst W. split; [apply Z.div_pos; lia|].
    apply Z.div_lt_upper_bound; [lia|].
    assert (2 ^ 53 * 1 <= 2 ^ (- e) * 2 ^ 53); [|lia].
    rewrite (Z.mul_comm (2 ^ (- e))). apply Z.mul_le_mono_nonneg_l; lia. }
  rewrite toString_of_Z.
  2:{ split; [apply Z.div_pos; lia|]. apply Z.div_lt_upper_bound; lia. }
  unfold M_SS. f_equal. f_equal.
  pose proof (Z.mod_pos_bound W 60 ltac:(lia)) as Hk.
  pose proof seconds_checked as H.
  rewrite forallb_forall in H.
  specialize (H (Z.to_nat (W mod 60))). rewrite Z2Nat.id in H by lia.
  apply String.eqb_eq, H, in_seq. lia.
Qed.

(** The order of two positive numbers is the order of their values. *)
Lemma SFcompare_finite (m1 m2 : positive) (e1 e2 : Z) :
  canonical_mantissa prec emax m1 e1 = true ->
  canonical_mantissa prec emax m2 e2 = true ->
  SFcompare (S754_finite false m1 e1) (S754_finite false m2 e2)
  = Some (Zpos m1 * 2 ^ (e1 - Z.min e1 e2) ?= Zpos m2 * 2 ^ (e2 - Z.min e1 e2)).
Proof.
  intros H1 H2.
  destruct (canonical_cases m1 e1 H1) as (Hl1 & Hd1 & Hn1).
  destruct (canonical_cases m2 e2 H2) as (Hl2 & Hd2 & Hn2).
  pose proof (digits2_le_lt m1 53 Hd1) as Hu1.
  pose proof (digits2_le_lt m2 53 Hd2) as Hu2.
  pose proof (digits2_pos_bounds m1) as [Hb1 _].
  pose proof (digits2_pos_bounds m2) as [Hb2 _].
  assert (E53 : 2 ^ 53 = 2 * 2 ^ 52) by reflexivity.
  unfold SFcompare. f_equal.
  destruct (Z.compare_spec e1 e2) as [E|E|E].
  - subst e2. rewrite Z.min_id, Z.sub_diag. change (2 ^ 0) with 1.
    rewrite !Z.mul_1_r, Pos.compare_cont_spec.
    destruct (m1 ?= m2)%positive eqn:E; cbn [Pos.switch_Eq Z.compare]; rewrite E; reflexivity.
  - rewrite Z.min_l, Z.sub_diag by lia. change (2 ^ 0) with 1. rewrite Z.mul_1_r.
    symmetry. apply Z.compare_lt_iff.
    rewrite (Hn2 ltac:(lia)) in Hb2. change (53 - 1) with 52 in Hb2.
    assert (2 ^ 1 <= 2 ^ (e2 - e1)) by (apply Z.pow_le_mono_r; lia).
    change (2 ^ 1) with 2 in *.
    assert (Zpos m2 * 2 <= Zpos m2 * 2 ^ (e2 - e1))
      by (apply Z.mul_le_mono_nonneg_l; lia).
    lia.
  - rewrite Z.min_r, Z.sub_diag by lia. change (2 ^ 0) with 1. rewrite Z.mul_1_r.
    symmetry. apply Z.compare_gt_iff.
    rewrite (Hn1 ltac:(lia)) in Hb1. change (53 - 1) with 52 in Hb1.
    assert (2 ^ 1 <= 2 ^ (e1 - e2)) by (apply Z.pow_le_mono_r; lia).
    change (2 ^ 1) with 2 in *.
    assert (Zpos m1 * 2 <= Zpos m1 * 2 ^ (e1 - e2))
      by (apply Z.mul_le_mono_nonneg_l; lia).
    lia.
Qed.

(** The number that stands for a positive integer below [2^53]. *)
Lemma of_Z_positive (n : Z) :
  0 < n < 2 ^ 53 ->
  exists mn en,
    Prim2SF (JS.of_Z n) = S754_finite false mn en
    /\ canonical_mantissa prec emax mn en = true
    /\ en <= 0 /\ Zpos mn = n * 2 ^ (- en).
Proof.
  intros [H0 H53]. destruct n as [|p|p]; try lia.
  assert (Hd : Zpos (digits2_pos p) <= 53) by (apply digits2_lt_le; lia).
  destruct (binary_normalize_exact p 0 Hd ltac:(lia)) as (mz & Hn & Hmz & Hfe & Hv).
  exists mz, (fexp prec emax (Zpos (digits2_pos p) + 0)).
  unfold JS.of_Z. rewrite Hn, Prim2SF_SF2Prim by exact Hv.
  split; [reflexivity|]. split; [exact (canonical_of_valid _ _ _ Hv)|].
  split; [exact Hfe|]. rewrite Hmz. f_equal; try f_equal; lia.
Qed.

(** Where the value of a positive number lies among the integers, read off
    the comparisons with the numbers that stand for them. *)
Lemma value_below (m mn : positive) (e en n : Z) :
  canonical_mantissa prec emax m e = true ->
  canonical_mantissa prec emax mn en = true ->
  en <= 0 -> Zpos mn = n * 2 ^ (- en) ->
  SFltb (S754_finite false m e) (S754_finite false mn en) = true ->
  e <= 0 /\ Zpos m < n * 2 ^ (- e).
Proof.
  intros Hc Hcn Hen Hmn Hlt.
  unfold SFltb in Hlt. rewrite SFcompare_finite in Hlt by assumption.
  destruct (Z.compare_spec (Zpos m * 2 ^ (e - Z.min e en))
              (Zpos mn * 2 ^ (en - Z.min e en))) as [|Hcmp|]; try discriminate.
  clear Hlt.
  destruct (canonical_cases m e Hc) as (Hl & Hd & Hn).
  destruct (canonical_cases mn en Hcn) as (Hln & Hdn & _).
  pose proof (digits2_le_lt mn 53 Hdn) as Hun.
  pose proof (digits2_pos_bounds m) as [Hb _].
  destruct (Z.le_gt_cases e en) as [Hle|Hgt].
  - rewrite Z.min_l, Z.sub_diag in Hcmp by lia. change (2 ^ 0) with 1 in Hcmp.
    split; [lia|].
    rewrite Hmn, <- Z.mul_assoc, <- Z.pow_add_r in Hcmp by lia.
    replace (- en + (en - e)) with (- e) in Hcmp by lia. lia.
  - rewrite Z.min_r, Z.sub_diag in Hcmp by lia. change (2 ^ 0) with 1 in Hcmp.
    rewrite Z.mul_1_r in Hcmp.
    assert (He : e <= 0).
    { destruct (Z.le_gt_cases e 0) as [|Hpos]; [assumption|exfalso].
      rewrite (Hn ltac:(lia)) in Hb. change (53 - 1) with 52 in Hb.
      assert (2 ^ 1 <= 2 ^ (e - en)) by (apply Z.pow_le_mono_r; lia).
      change (2 ^ 1) with 2 in *.
      assert (Zpos m * 2 <= Zpos m * 2 ^ (e - en))
        by (apply Z.mul_le_mono_nonneg_l; lia).
      assert (E53 : 2 ^ 53 = 2 * 2 ^ 52) by reflexivity. lia. }
    split; [exact He|].
    assert (HA : 0 < 2 ^ (e - en)) by (apply Z.pow_pos_nonneg; lia).
    replace (- en) with (- e + (e - en)) in Hmn by lia.
    rewrite Z.pow_add_r, Z.mul_assoc in Hmn by lia. rewrite Hmn in Hcmp.
    apply Z.mul_lt_mono_pos_r in Hcmp; assumption.
Qed.

Lemma value_above (m mn : positive) (e en n : Z) :
  canonical_mantissa prec emax m e = true ->
  canonical_mantissa prec emax mn en = true ->
  e <= 0 -> en <= 0 -> Zpos mn = n * 2 ^ (- en) ->
  SFleb (S754_finite false mn en) (S754_finite false m e) = true ->
  n * 2 ^ (- e) <= Zpos m.
Proof.
  intros Hc Hcn He Hen Hmn Hle.
  unfold SFleb in Hle. rewrite SFcompare_finite in Hle by assumption.
  assert (Hcmp : Zpos mn * 2 ^ (en - Z.min en e) <= Zpos m * 2 ^ (e - Z.min en e)).
  { destruct (Z.compare_spec (Zpos mn * 2 ^ (en - Z.min en e))
                (Zpos m * 2 ^ (e - Z.min en e))); try discriminate; lia. }
  clear Hle.
  destruct (Z.le_gt_cases e en) as [Hle|Hgt].
  - rewrite Z.min_r, Z.sub_diag in Hcmp by lia. change (2 ^ 0) with 1 in Hcmp.
    rewrite Hmn, <- Z.mul_assoc, <- Z.pow_add_r in Hcmp by lia.
    replace (- en + (en - e)) with (- e) in Hcmp by lia. lia.
  - rewrite Z.min_l, Z.sub_diag in Hcmp by lia. change (2 ^ 0) with 1 in Hcmp.
    rewrite Z.mul_1_r in Hcmp.
    assert (HA : 0 < 2 ^ (e - en)) by (apply Z.pow_pos_nonneg; lia).
    replace (- en) with (- e + (e - en)) in Hmn by lia.
    rewrite Z.pow_add_r, Z.mul_assoc in Hmn by lia. rewrite Hmn in Hcmp.
    apply Z.mul_le_mono_pos_r in Hcmp; assumption.
Qed.

(** A time within the second that starts at [n] is a zero (then [n = 0]) or
    a positive number whose whole seconds are [n]. *)
Lemma within_second (t : float) (n : Z) :
  0 <= n < 9007199254740991 ->
  (JS.of_Z n <=? t)%float = true -> (t <? JS.of_Z (n + 1))%float = true ->
  (exists s, Prim2SF t = S754_zero s /\ n = 0)
  \/ (exists m e, Prim2SF t = S754_finite false m e /\ e <= 0
                  /\ Zpos m / 2 ^ (- e) = n).
Proof.
  intros Hn. rewrite leb_spec, ltb_spec.
  assert (E53 : 2 ^ 53 = 9007199254740992) by reflexivity.
  destruct (of_Z_positive (n + 1) ltac:(lia)) as (mu & eu & -> & Hcu & Heu & Hmu).
  pose proof (Prim2SF_valid t) as Hv.
  destruct (Z.eq_dec n 0) as [->|Hn0].
  - change (Prim2SF (JS.of_Z 0)) with (S754_zero false).
    destruct (Prim2SF t) as [s|s| |s m e]; try (destruct s; discriminate);
      try discriminate.
    + intros _ _. left. exists s. split; reflexivity.
    + destruct s; [discriminate|]. intros _ Hlt. right. exists m, e.
      pose proof (canonical_of_valid _ _ _ Hv) as Hc.
      destruct (value_below m mu e eu (0 + 1) Hc Hcu Heu Hmu Hlt) as [He Hb].
      split; [reflexivity|]. split; [exact He|].
      apply Z.div_small. lia.
  - destruct (of_Z_positive n ltac:(lia)) as (ml & el & -> & Hcl & Hel & Hml).
    destruct (Prim2SF t) as [s|s| |s m e]; try (destruct s; discriminate);
      try discriminate.
    destruct s; [discriminate|]. intros Hle Hlt. right. exists m, e.
    pose proof (canonical_of_valid _ _ _ Hv) as Hc.
    destruct (value_below m mu e eu (n + 1) Hc Hcu Heu Hmu Hlt) as [He Hb].
    pose proof (value_above m ml e el n Hc Hcl He Hel Hml Hle) as Ha.
    split; [reflexivity|]. split; [exact He|].
    symmetry. apply Z.div_unique_pos with (r := Zpos m - n * 2 ^ (- e)); lia.
Qed.



(** A whole number of seconds lies within its own second. *)
Lemma of_Z_within_second (n : Z) :
  0 <= n < 9007199254740991 ->
  (JS.of_Z n <=? JS.of_Z n)%float = true
  /\ (JS.of_Z n <? JS.of_Z (n + 1))%float = true.
Proof.
  intros Hn. rewrite leb_spec, ltb_spec.
  assert (E53 : 2 ^ 53 = 9007199254740992) by reflexivity.
  destruct (of_Z_positive (n + 1) ltac:(lia)) as (mu & eu & -> & Hcu & Heu & Hmu).
  destruct (Z.eq_dec n 0) as [->|Hn0]; [split; reflexivity|].
  destruct (of_Z_positive n ltac:(lia)) as (ml & el & -> & Hcl & Hel & Hml).
  split.
  - unfold SFleb. rewrite SFcompare_refl by discriminate. reflexivity.
  - unfold SFltb. rewrite SFcompare_finite by assumption.
    set (c := Z.min el eu).
    assert (Hc : c <= el /\ c <= eu) by (subst c; lia).
    assert (Hp : 0 < 2 ^ (- c)) by (apply Z.pow_pos_nonneg; lia).
    rewrite Hml, Hmu, <- !Z.mul_assoc, <- !Z.pow_add_r by lia.
    replace (- el + (el - c)) with (- c) by lia.
    replace (- eu + (eu - c)) with (- c) by lia.
    replace (n * 2 ^ (- c) ?= (n + 1) * 2 ^ (- c)) with Lt; [reflexivity|].
    symmetry. apply Z.compare_lt_iff. apply Z.mul_lt_mono_pos_r; lia.
Qed.

(** Every time within the second that starts at [n] is printed as [n] is. *)
Lemma formatTime_within_second (t : float) (n : Z) :
  0 <= n < 9007199254740991 ->
  (JS.of_Z n <=? t)%float = true -> (t <? JS.of_Z (n + 1))%float = true ->
  formatTime t = M_SS n.
Proof.
  intros Hn Hle Hlt.
  destruct (within_second t n Hn Hle Hlt) as [(s & Ht & ->)|(m & e & Ht & He & <-)].
  - rewrite <- (SF2Prim_Prim2SF t), Ht. destruct s; reflexivity.
  - apply formatTime_floor; assumption.
Qed.

End WholeSeconds.

(** C3 (counterexample).  [formatTime(NaN)] is ["NaN:NaN"]. *)
Lemma formatTime_NaN : formatTime nan = "NaN:NaN"%string.
Proof. vm_compute. reflexivity. Qed.

(** C3 (amended).  [formatTime] renders the minutes unpadded and the seconds
    as two digits for every time from zero up to [2^53 - 1] seconds, whole
    or not: a time within the second that starts at the whole number [n] is
    printed as the decimal digits of [n / 60], a colon and [n mod 60] as two
    digits (the division by 60 is rounded, but never up to the next minute,
    and the seconds never read 60); so is [n] itself, and [formatTime(0)] is
    ["0:00"] and [formatTime(65)] is ["1:05"].  The function has no guard:
    for [NaN] it renders ["NaN:NaN"], for a negative time or an infinite one
    it does not keep the format either. *)
Theorem formatTime_M_SS (t : float) (n : Z) :
  (0 <= n < 9007199254740991)%Z ->
  (JS.of_Z n <=? t) = true -> (t <? JS.of_Z (n + 1)) = true ->
  formatTime t = M_SS n
  /\ formatTime (JS.of_Z n) = M_SS n
  /\ formatTime 0 = "0:00"%string
  /\ formatTime 65 = "1:05"%string
  /\ formatTime nan = "NaN:NaN"%string
  /\ formatTime (-1) = "-1:0-1"%string
  /\ formatTime infinity = "Infinity:NaN"%string.
Proof.
  intros Hn Hle Hlt.
  split; [apply formatTime_within_second; assumption|].
  split; [apply formatTime_within_second; [exact Hn|apply of_Z_within_second, Hn..]|].
  repeat split; vm_compute; reflexivity.
Qed.

Lemma formatTime_M_SS_witness :
  formatTime 59.984375 = M_SS 59
  /\ formatTime (JS.of_Z 59) = M_SS 59
  /\ formatTime 0 = "0:00"%string
  /\ formatTime 65 = "1:05"%string
  /\ formatTime nan = "NaN:NaN"%string
  /\ formatTime (-1) = "-1:0-1"%string
  /\ formatTime infinity = "Infinity:NaN"%string.
Proof. apply (formatTime_M_SS 59.984375 59); [lia | reflexivity | reflexivity]. Defined.

(** * Seeking *)

Lemma is_nan_eq (x : float) : is_nan x = true -> x = nan.
Proof.
  rewrite is_nan_Prim2SF. intros H.
  rewrite <- (SF2Prim_Prim2SF x).
  destruct (Prim2SF x) as [s|s| |s m e]; try discriminate. reflexivity.
Qed.

(** A seek with a duration that is still [NaN]: the target is [NaN] and the
    element refuses it. *)
Lemma set_currentTime_nan_duration (x : float) (v : Video.t) :
  is_nan (Video.duration v) = true ->
  x * Video.duration v = nan /\ Video.set_currentTime (x * Video.duration v) v = None.
Proof.
  intros H. pose proof (is_nan_mul_r x _ H) as Hn. split.
  - apply is_nan_eq, Hn.
  - unfold Video.set_currentTime. rewrite (is_finite_nan _ Hn). reflexivity.
Qed.

(** C4 (counterexample).  [handleSeek] does not clamp: a value of 1.5 on a
    ten-second video assigns 15 and stores a progress of 1.5.  Nor is a seek
    a no-op when the duration is unknown: with a duration of 0 [handleSeek]
    assigns a time and stores the new progress, and with a duration of [NaN]
    the handlers still make the assignment, which throws. *)
Lemma seek_neither_clamped_nor_guarded :
  MotionReel.handleSeek 1.5
    (MotionReel.mkCard MotionReel.initial (Some (Video.mk true true 0 10)))
  = (MotionReel.mkCard (MotionReel.mkState false true 1.5 false)
       (Some (Video.mk true true 15 10)),
     [video_set_currentTime 15])
  /\ MotionReel.handleSeek 0.5
       (MotionReel.mkCard MotionReel.initial (Some (Video.mk true true 0 0)))
     = (MotionReel.mkCard (MotionReel.mkState false true 0.5 false)
          (Some (Video.mk true true 0 0)),
        [video_set_currentTime 0])
  /\ snd (GalleryA.handleProgressClick 150
            (GalleryA.mounted (Video.mk true false 0 nan) (mkRect 0 300)))
     = [video_set_currentTime nan; uncaught_TypeError]
  /\ snd (MotionReel.handleSeek 0.5
            (MotionReel.mkCard MotionReel.initial (Some (Video.mk true true 0 nan))))
     = [video_set_currentTime nan; uncaught_TypeError].
Proof. repeat split; reflexivity. Qed.

(** C4 (amended).  A click on a gallery card's progress bar is turned into
    a fraction that is clamped to [0,1] ([NaN] only when the division gives
    [NaN]), and the handler assigns that fraction times the duration to the
    element's current time; [handleSeek] of the reel card assigns the
    slider's value times the duration, the value as it comes.  No handler
    tests the duration: when it is [NaN] the target is [NaN], the assignment
    throws and the card is left as it was; when it is a zero the target of a
    click is a zero. *)
Theorem seek_assigns_fraction_times_duration
    (clientX value : float) (rect : DOMRect)
    (s : MotionReel.state) (g : gallery_state) (v m : Video.t) (src : string) :
  let pos := click_position clientX rect in
  let a := GalleryA.mkCard g v true m true (Some rect) in
  let b := GalleryB.mkCard g src v true (Some rect) in
  let r := MotionReel.mkCard s (Some v) in
  (is_nan pos = true \/ ((0 <=? pos) = true /\ (pos <=? 1) = true))
  /\ hd_error (snd (GalleryA.handleProgressClick clientX a))
     = Some (video_set_currentTime (pos * Video.duration v))
  /\ hd_error (snd (GalleryB.handleProgressClick clientX b))
     = Some (video_set_currentTime (pos * Video.duration v))
  /\ hd_error (snd (MotionReel.handleSeek value r))
     = Some (video_set_currentTime (value * Video.duration v))
  /\ (is_nan (Video.duration v) = true ->
      GalleryA.handleProgressClick clientX a
      = (a, [video_set_currentTime nan; uncaught_TypeError])
      /\ GalleryB.handleProgressClick clientX b
         = (b, [video_set_currentTime nan; uncaught_TypeError])
      /\ MotionReel.handleSeek value r
         = (r, [video_set_currentTime nan; uncaught_TypeError]))
  /\ (is_zero (Video.duration v) = true ->
      is_nan pos = true \/ is_zero (pos * Video.duration v) = true).
Proof.
  cbv zeta.
  assert (Hpos : is_nan (click_position clientX rect) = true
                 \/ ((0 <=? click_position clientX rect) = true
                     /\ (click_position clientX rect <=? 1) = true)).
  { unfold click_position.
    destruct (clamp_range ((clientX - left rect) / width rect)) as [[_ H]|[_ H]];
      [left | right]; exact H. }
  split; [exact Hpos|].
  unfold GalleryA.handleProgressClick, GalleryB.handleProgressClick,
    MotionReel.handleSeek, GalleryA.current, GalleryA.desktopVideoRef,
    GalleryB.videoRef.
  cbn [GalleryA.progressRef GalleryA.desktopMounted GalleryA.desktop
       GalleryB.progressRef GalleryB.videoMounted GalleryB.video
       MotionReel.videoRef].
  split; [destruct (Video.set_currentTime _ v); reflexivity|].
  split; [destruct (Video.set_currentTime _ v); reflexivity|].
  split; [destruct (Video.set_currentTime _ v); reflexivity|].
  split.
  - intros Hd.
    destruct (set_currentTime_nan_duration (click_position clientX rect) v Hd)
      as [-> E1].
    destruct (set_currentTime_nan_duration value v Hd) as [-> E2].
    rewrite E1. repeat split; reflexivity.
  - intros Hd. destruct Hpos as [H|[H0 H1]]; [left; exact H|right].
    apply is_zero_mul_r; assumption.
Qed.

Lemma seek_assigns_fraction_times_duration_witness :
  GalleryA.handleProgressClick 150
    (GalleryA.mkCard gallery_initial (Video.mk true false 0 nan) true
       (Video.mk true false 0 nan) true (Some (mkRect 0 300)))
  = (GalleryA.mkCard gallery_initial (Video.mk true false 0 nan) true
       (Video.mk true false 0 nan) true (Some (mkRect 0 300)),
     [video_set_currentTime nan; uncaught_TypeError]).
Proof.
  apply (seek_assigns_fraction_times_duration 150 0.5 (mkRect 0 300)
           MotionReel.initial gallery_initial (Video.mk true false 0 nan)
           (Video.mk true false 0 nan) "a.mp4").
  reflexivity.
Defined.

(** * Load errors *)

(** Once [hasError] is set, no media event and no run of the load effect
    clears it, and the single-element card keeps its video unmounted. *)
Lemma GalleryB_error_sticks (es : list gallery_event) : forall c : GalleryB.card,
  hasError (GalleryB.ui c) = true -> GalleryB.videoMounted c = false ->
  hasError (GalleryB.ui (fold_left (fun c e => GalleryB.on e c) es c)) = true
  /\ GalleryB.videoMounted (fold_left (fun c e => GalleryB.on e c) es c) = false.
Proof.
  induction es as [|e es IH]; intros c He Hm; [split; assumption|].
  cbn [fold_left]. apply IH.
  - destruct c as [[p pr d ct mu sc ld he] src v mt bar]; cbn in He, Hm.
    subst he mt. destruct e; reflexivity.
  - destruct c as [[p pr d ct mu sc ld he] src v mt bar]; cbn in He, Hm.
    subst he mt. destruct e; reflexivity.
Qed.

(** An unmounted single-element card ignores the transport controls and the
    load effect. *)
Lemma GalleryB_unmounted_inert (c : GalleryB.card) (o : settled) (x : float) :
  GalleryB.videoMounted c = false ->
  GalleryB.run (TogglePlay o) c = (c, [])
  /\ GalleryB.run ToggleMute c = (c, [])
  /\ GalleryB.run (ProgressClick x) c = (c, [])
  /\ GalleryB.loadVideo c = (c, []).
Proof.
  intros Hm. cbn [GalleryB.run].
  unfold GalleryB.togglePlay, GalleryB.toggleMute, GalleryB.handleProgressClick,
    GalleryB.loadVideo, GalleryB.videoRef.
  rewrite Hm. destruct (GalleryB.progressRef c); repeat split; reflexivity.
Qed.

(** A gesture or an event on card [i] of a page leaves every other card of
    the page as it was. *)
Lemma page_run_sibling {card command : Type}
    (run : command -> card -> card * list effect)
    (i j : nat) (cmd : command) (page : list card) :
  i <> j -> fst (page_run run i cmd page) !! j = page !! j.
Proof.
  intros Hij. unfold page_run. destruct (page !! i); cbn [fst]; [|reflexivity].
  apply list_lookup_insert_ne, Hij.
Qed.

Lemma page_on_sibling {card event : Type} (on : event -> card -> card)
    (i j : nat) (e : event) (page : list card) :
  i <> j -> page_on on i e page !! j = page !! j.
Proof. intros Hij. apply list_lookup_alter_ne, Hij. Qed.

(** C5 (counterexample).  In the card with a desktop and a mobile element,
    the error event replaces the desktop video by the error affordance, and
    the controls then drive the mobile element: mute flips the card's
    [isMuted], play starts the element.  The reel card has no listener for
    the error event at all. *)
Lemma errored_dual_card_not_inert :
  GalleryA.shows (GalleryA.on Error
                    (GalleryA.mounted (Video.mk true false 0 nan) (mkRect 0 300)))
  = FailedToLoad
  /\ isMuted (GalleryA.ui (GalleryA.on Error
                (GalleryA.mounted (Video.mk true false 0 nan) (mkRect 0 300))))
     = false
  /\ isMuted (GalleryA.ui (fst (GalleryA.run ToggleMute
                (GalleryA.on Error
                   (GalleryA.mounted (Video.mk true false 0 nan) (mkRect 0 300))))))
     = true
  /\ snd (GalleryA.run (TogglePlay Fulfilled)
            (GalleryA.on Error
               (GalleryA.mounted (Video.mk true false 0 nan) (mkRect 0 300))))
     = [video_play]
  /\ MotionReel.on MotionReel.Error
       (MotionReel.mkCard MotionReel.initial (Some (Video.mk true true 0 nan)))
     = MotionReel.mkCard MotionReel.initial (Some (Video.mk true true 0 nan)).
Proof. repeat split; reflexivity. Qed.

(** C5 (amended).  In the gallery card with a single media element, after
    the element's error event the card shows the error affordance, and from
    then on, whatever media events follow, toggle-play, toggle-mute, a click
    on the progress bar and the load effect change nothing and call nothing.
    In every version, a gesture or a media event on one card leaves all
    other cards of the page as they were. *)
Theorem errored_card_inert
    (c : GalleryB.card) (es : list gallery_event) (o : settled) (x : float)
    (i j : nat) (cmd : gallery_command) (e : gallery_event)
    (cmd' : MotionReel.command) (e' : MotionReel.event)
    (pageB : list GalleryB.card) (pageA : list GalleryA.card)
    (page : list MotionReel.card) :
  i <> j ->
  let c' := fold_left (fun c e => GalleryB.on e c) es (GalleryB.on Error c) in
  GalleryB.shows c' = FailedToLoad
  /\ GalleryB.run (TogglePlay o) c' = (c', [])
  /\ GalleryB.run ToggleMute c' = (c', [])
  /\ GalleryB.run (ProgressClick x) c' = (c', [])
  /\ GalleryB.loadVideo c' = (c', [])
  /\ fst (page_run GalleryB.run i cmd pageB) !! j = pageB !! j
  /\ page_on GalleryB.on i e pageB !! j = pageB !! j
  /\ fst (page_run GalleryA.run i cmd pageA) !! j = pageA !! j
  /\ page_on GalleryA.on i e pageA !! j = pageA !! j
  /\ fst (page_run MotionReel.run i cmd' page) !! j = page !! j
  /\ page_on MotionReel.on i e' page !! j = page !! j.
Proof.
  intros Hij. cbv zeta.
  assert (He : hasError (GalleryB.ui (GalleryB.on Error c)) = true
               /\ GalleryB.videoMounted (GalleryB.on Error c) = false)
    by (destruct c; split; reflexivity).
  destruct He as [He Hm].
  destruct (GalleryB_error_sticks es _ He Hm) as [He' Hm'].
  destruct (GalleryB_unmounted_inert _ o x Hm') as (H1 & H2 & H3 & H4).
  split; [unfold GalleryB.shows; rewrite He'; reflexivity|].
  repeat (split; [assumption|]).
  repeat split; auto using @page_run_sibling, @page_on_sibling.
Qed.

Lemma errored_card_inert_witness :
  GalleryB.shows
    (GalleryB.on Pause
       (GalleryB.on Error
          (GalleryB.mounted "b.mp4" (Video.mk true false 0 nan) (mkRect 0 300))))
  = FailedToLoad
  /\ GalleryB.run ToggleMute
       (GalleryB.on Pause
          (GalleryB.on Error
             (GalleryB.mounted "b.mp4" (Video.mk true false 0 nan) (mkRect 0 300))))
     = (GalleryB.on Pause
          (GalleryB.on Error
             (GalleryB.mounted "b.mp4" (Video.mk true false 0 nan) (mkRect 0 300))),
        []).
Proof.
  pose proof (errored_card_inert
                (GalleryB.mounted "b.mp4" (Video.mk true false 0 nan) (mkRect 0 300))
                [Pause] (Rejected "NotAllowedError") 150 0%nat 1%nat
                ToggleMute Play MotionReel.ToggleMute MotionReel.Play [] [] []
                ltac:(lia)) as H.
  cbv zeta in H. destruct H as (H1 & _ & H3 & _).
  split; [exact H1 | exact H3].
Defined.

(** * Play and pause *)

(** C6.  A rejected [play()]: the gallery cards catch the rejection and pass
    it to [console.error]; the reel card attaches no handler, and the
    rejection stays unhandled and unlogged.  In all three the card is left
    as it was. *)
Theorem togglePlay_rejection :
  MotionReel.togglePlay (Rejected "NotAllowedError")
    (MotionReel.mkCard MotionReel.initial (Some (Video.mk true true 0 10)))
  = (MotionReel.mkCard MotionReel.initial (Some (Video.mk true true 0 10)),
     [video_play; unhandled_rejection "NotAllowedError"])
  /\ GalleryA.togglePlay (Rejected "NotAllowedError")
       (GalleryA.mounted (Video.mk true false 0 10) (mkRect 0 300))
     = (GalleryA.mounted (Video.mk true false 0 10) (mkRect 0 300),
        [video_play; console_error "NotAllowedError"])
  /\ GalleryB.togglePlay (Rejected "NotAllowedError")
       (GalleryB.mounted "a.mp4" (Video.mk true false 0 10) (mkRect 0 300))
     = (GalleryB.mounted "a.mp4" (Video.mk true false 0 10) (mkRect 0 300),
        [video_play; console_error "NotAllowedError"]).
Proof. repeat split; reflexivity. Qed.

(** The reel card's [togglePlay] never writes to the console, whatever the
    card and however [play()] settles. *)
Lemma MotionReel_togglePlay_never_logs (o : settled) (c : MotionReel.card) (r : string) :
  ~ In (console_error r) (snd (MotionReel.togglePlay o c)).
Proof.
  unfold MotionReel.togglePlay.
  destruct (MotionReel.videoRef c) as [v|]; [|cbn; tauto].
  destruct (Video.paused v), o; cbn; intuition discriminate.
Qed.

Ltac split_branches :=
  repeat match goal with
         | |- context [if ?x then _ else _] => destruct x
         | |- context [match Video.set_currentTime ?t ?v with _ => _ end] =>
             destruct (Video.set_currentTime t v)
         | |- context [match ?o with Fulfilled => _ | Rejected _ => _ end] =>
             destruct o
         end.







(** * What a section renders *)








(** * The progress bar after a seek *)

(** C9 (counterexample).  A click in the middle of the progress bar of a
    gallery card seeks the element to half of its ten seconds and leaves the
    card's progress at 0, where it was: the bar only moves with the next
    time update. *)
Lemma click_seek_leaves_progress :
  GalleryB.handleProgressClick 150
    (GalleryB.mounted "a.mp4" (Video.mk true false 0 10) (mkRect 0 300))
  = (GalleryB.mkCard gallery_initial "a.mp4" (Video.mk true false 5 10) true
       (Some (mkRect 0 300)),
     [video_set_currentTime 5])
  /\ progress (GalleryB.ui (fst (GalleryB.handleProgressClick 150
                 (GalleryB.mounted "a.mp4" (Video.mk true false 0 10) (mkRect 0 300)))))
     = 0
  /\ progress (GalleryA.ui (fst (GalleryA.handleProgressClick 150
                 (GalleryA.mounted (Video.mk true false 0 10) (mkRect 0 300)))))
     = 0
  /\ progress (GalleryB.ui (GalleryB.on TimeUpdate
                 (fst (GalleryB.handleProgressClick 150
                    (GalleryB.mounted "a.mp4" (Video.mk true false 0 10)
                       (mkRect 0 300))))))
     = 50.
Proof. repeat split; reflexivity. Qed.

(** C9 (amended).  [handleSeek] of the reel card stores the requested value
    as the progress at once, provided the element is attached and accepts
    the target time (the target is finite).  [handleProgressClick] of the
    gallery cards never changes the card's state: their bar follows the
    element's time updates. *)
Theorem seek_updates_progress
    (value clientX : float) (s : MotionReel.state) (v : Video.t)
    (a : GalleryA.card) (b : GalleryB.card) :
  is_finite (value * Video.duration v) = true ->
  MotionReel.progress
    (MotionReel.ui (fst (MotionReel.handleSeek value (MotionReel.mkCard s (Some v)))))
  = value
  /\ GalleryA.ui (fst (GalleryA.handleProgressClick clientX a)) = GalleryA.ui a
  /\ GalleryB.ui (fst (GalleryB.handleProgressClick clientX b)) = GalleryB.ui b.
Proof.
  intros Hfin. split; [|split].
  - unfold MotionReel.handleSeek, Video.set_currentTime. cbn [MotionReel.videoRef].
    rewrite Hfin. reflexivity.
  - destruct a as [g d [|] m [|] [bar|]]; cbn;
      unfold GalleryA.handleProgressClick, GalleryA.current,
        GalleryA.desktopVideoRef, GalleryA.mobileVideoRef;
      cbn; split_branches; reflexivity.
  - destruct b as [g src vb [|] [bar|]]; cbn;
      unfold GalleryB.handleProgressClick, GalleryB.videoRef;
      cbn; split_branches; reflexivity.
Qed.

Lemma seek_updates_progress_witness :
  MotionReel.progress
    (MotionReel.ui (fst (MotionReel.handleSeek 0.25
       (MotionReel.mkCard MotionReel.initial (Some (Video.mk true true 0 10))))))
  = 0.25.
Proof.
  apply (seek_updates_progress 0.25 150 MotionReel.initial (Video.mk true true 0 10)
           (GalleryA.mounted (Video.mk true false 0 10) (mkRect 0 300))
           (GalleryB.mounted "a.mp4" (Video.mk true false 0 10) (mkRect 0 300))).
  reflexivity.
Defined.

(** * Without an element *)

(** C10.  While no media element is attached (the refs are [null]),
    toggle-play, toggle-mute and the seek handler of every version return
    at once: the card is unchanged and nothing is called. *)
Theorem commands_without_element
    (o : settled) (value clientX : float) (s : MotionReel.state)
    (g : gallery_state) (d m v : Video.t) (src : string) (bar : option DOMRect) :
  let r := MotionReel.mkCard s None in
  let a := GalleryA.mkCard g d false m false bar in
  let b := GalleryB.mkCard g src v false bar in
  MotionReel.run (MotionReel.TogglePlay o) r = (r, [])
  /\ MotionReel.run MotionReel.ToggleMute r = (r, [])
  /\ MotionReel.run (MotionReel.Seek value) r = (r, [])
  /\ GalleryA.run (TogglePlay o) a = (a, [])
  /\ GalleryA.run ToggleMute a = (a, [])
  /\ GalleryA.run (ProgressClick clientX) a = (a, [])
  /\ GalleryB.run (TogglePlay o) b = (b, [])
  /\ GalleryB.run ToggleMute b = (b, [])
  /\ GalleryB.run (ProgressClick clientX) b = (b, []).
Proof. cbv zeta. destruct bar; repeat split; reflexivity. Qed.

(** * Further facts about the cards

    The facts below follow whole runs of a card: sequences of gestures,
    media events and effects. *)

(** * Mute *)

(** X1.  Toggling mute twice leaves the element as it was, with the state
    showing the element's flag; after one toggle the state shows the
    opposite of the flag the element had. *)
Theorem toggleMute_twice
    (s : MotionReel.state) (g : gallery_state) (v m : Video.t) (src : string)
    (bar : option DOMRect) (mm : bool) :
  let r := MotionReel.mkCard s (Some v) in
  let a := GalleryA.mkCard g v true m mm bar in
  let b := GalleryB.mkCard g src v true bar in
  fst (MotionReel.toggleMute (fst (MotionReel.toggleMute r)))
  = MotionReel.mkCard (MotionReel.setMuted (Video.muted v) s) (Some v)
  /\ fst (GalleryA.toggleMute (fst (GalleryA.toggleMute a)))
     = GalleryA.with_ui (setIsMuted (Video.muted v) g) a
  /\ fst (GalleryB.toggleMute (fst (GalleryB.toggleMute b)))
     = GalleryB.with_ui (setIsMuted (Video.muted v) g) b
  /\ MotionReel.muted (MotionReel.ui (fst (MotionReel.toggleMute r)))
     = negb (Video.muted v)
  /\ isMuted (GalleryA.ui (fst (GalleryA.toggleMute a))) = negb (Video.muted v)
  /\ isMuted (GalleryB.ui (fst (GalleryB.toggleMute b))) = negb (Video.muted v).
Proof.
  cbv zeta. destruct v as [p mu ct d], s as [pl ms pr sd]; cbn.
  destruct mu; repeat split; reflexivity.
Qed.

Lemma reel_step_mirror (a : interaction MotionReel.command MotionReel.event)
    (c : MotionReel.card) (v : Video.t) :
  MotionReel.videoRef c = Some v ->
  MotionReel.muted (MotionReel.ui c) = Video.muted v ->
  exists v', MotionReel.videoRef (reel_step a c) = Some v'
             /\ MotionReel.muted (MotionReel.ui (reel_step a c)) = Video.muted v'.
Proof.
  destruct c as [s ref], v as [vp vmu vct vd]; cbn. intros -> Hm.
  destruct a as [[o| |x|]|[]]; cbn;
    unfold MotionReel.togglePlay, MotionReel.toggleMute, MotionReel.handleSeek,
      MotionReel.handleProgress, Video.set_currentTime, Video.play; cbn;
    repeat match goal with
           | |- context [if ?x then _ else _] => destruct x
           | |- context [match ?o with Fulfilled => _ | Rejected _ => _ end] =>
               destruct o
           end; cbn; eexists; split; try reflexivity; assumption.
Qed.

Lemma galleryB_step_mirror (a : galleryB_action) (c : GalleryB.card) :
  isMuted (GalleryB.ui c) = Video.muted (GalleryB.video c) ->
  isMuted (GalleryB.ui (galleryB_step a c))
  = Video.muted (GalleryB.video (galleryB_step a c)).
Proof.
  destruct c as [[p pr d ct mu sc ld [|]] src [vp vmu vct vd] [|] bar]; cbn; intros ->.
  all: destruct a as [[[o| |x| |]|[]]|]; cbn;
    unfold GalleryB.on, GalleryB.togglePlay, GalleryB.toggleMute, GalleryB.handleProgressClick,
      GalleryB.handleTimeUpdate, GalleryB.loadVideo, GalleryB.on, GalleryB.commit,
      GalleryB.videoRef, Video.set_currentTime, Video.play; cbn;
    repeat match goal with
           | |- context [if ?x then _ else _] => destruct x; cbn
           | |- context [match ?o with Fulfilled => _ | Rejected _ => _ end] =>
               destruct o; cbn
           | |- context [match ?b with Some _ => _ | None => _ end] => destruct b; cbn
           end; reflexivity.
Qed.

(** X2.  Over any run of gestures, media events and (for the single-element
    gallery card) load effects, a mute state that shows the element's mute
    flag keeps showing it. *)
Theorem mute_state_mirrors_element
    (actions : list (interaction MotionReel.command MotionReel.event))
    (actionsB : list galleryB_action)
    (c : MotionReel.card) (v : Video.t) (b : GalleryB.card) :
  MotionReel.videoRef c = Some v ->
  MotionReel.muted (MotionReel.ui c) = Video.muted v ->
  isMuted (GalleryB.ui b) = Video.muted (GalleryB.video b) ->
  (exists v', MotionReel.videoRef (run_all reel_step actions c) = Some v'
              /\ MotionReel.muted (MotionReel.ui (run_all reel_step actions c))
                 = Video.muted v')
  /\ isMuted (GalleryB.ui (run_all galleryB_step actionsB b))
     = Video.muted (GalleryB.video (run_all galleryB_step actionsB b)).
Proof.
  intros Hr Hm Hb. split.
  - revert c v Hr Hm. unfold run_all.
    induction actions as [|a actions IH]; intros c v Hr Hm; cbn [fold_left].
    + exists v. split; assumption.
    + destruct (reel_step_mirror a c v Hr Hm) as (v' & Hr' & Hm').
      apply (IH _ v' Hr' Hm').
  - revert b Hb. unfold run_all.
    induction actionsB as [|a actionsB IH]; intros b Hb; cbn [fold_left].
    + exact Hb.
    + apply IH, galleryB_step_mirror, Hb.
Qed.

Lemma mute_state_mirrors_element_witness :
  (exists v', MotionReel.videoRef
                (run_all reel_step [Gesture MotionReel.ToggleMute; Media MotionReel.Play]
                   (MotionReel.mkCard MotionReel.initial (Some (Video.mk true true 0 10))))
              = Some v'
              /\ MotionReel.muted (MotionReel.ui
                   (run_all reel_step [Gesture MotionReel.ToggleMute; Media MotionReel.Play]
                      (MotionReel.mkCard MotionReel.initial (Some (Video.mk true true 0 10)))))
                 = Video.muted v')
  /\ isMuted (GalleryB.ui (run_all galleryB_step [Interaction (Gesture ToggleMute); Reload]
                (GalleryB.mounted "a.mp4" (Video.mk true false 0 10) (mkRect 0 300))))
     = Video.muted (GalleryB.video (run_all galleryB_step [Interaction (Gesture ToggleMute); Reload]
                (GalleryB.mounted "a.mp4" (Video.mk true false 0 10) (mkRect 0 300)))).
Proof.
  apply (mute_state_mirrors_element _ _ _ (Video.mk true true 0 10)); reflexivity.
Defined.

(** * Play and pause events *)

(** X3.  After any sequence of media events the playing flag is what the
    last [play] or [pause] event among them says, and what it was before if
    there was none; no other event touches it. *)
Theorem playing_flag_follows_last_event
    (es : list gallery_event) (es' : list MotionReel.event)
    (r : MotionReel.card) (a : GalleryA.card) (b : GalleryB.card) :
  MotionReel.playing (MotionReel.ui (fold_left (fun c e => MotionReel.on e c) es' r))
  = reel_last_play_pause es' (MotionReel.playing (MotionReel.ui r))
  /\ isPlaying (GalleryA.ui (fold_left (fun c e => GalleryA.on e c) es a))
     = last_play_pause es (isPlaying (GalleryA.ui a))
  /\ isPlaying (GalleryB.ui (fold_left (fun c e => GalleryB.on e c) es b))
     = last_play_pause es (isPlaying (GalleryB.ui b)).
Proof.
  split; [|split].
  - revert r. induction es' as [|e es' IH]; intros r; cbn [fold_left]; [reflexivity|].
    rewrite IH. destruct r as [s [v|]], e; reflexivity.
  - revert a. induction es as [|e es IH]; intros a; cbn [fold_left]; [reflexivity|].
    rewrite IH.
    destruct a as [[p pr d ct mu sc ld [|]] da [|] ma [|] bar], e; reflexivity.
  - revert b. induction es as [|e es IH]; intros b; cbn [fold_left]; [reflexivity|].
    rewrite IH.
    destruct b as [[p pr d ct mu sc ld [|]] src v [|] bar], e; reflexivity.
Qed.

(** X4.  A playing flag that agrees with the element still agrees with it
    after a press of the play button and the element's answer: [play] after
    an allowed [play()], [pause] after [pause()], nothing after a rejected
    [play()]. *)
Theorem toggle_then_answer_keeps_flag_true_to_element
    (o : settled) (s : MotionReel.state) (g : gallery_state) (v : Video.t)
    (src : string) (bar : option DOMRect) :
  MotionReel.playing s = negb (Video.paused v) ->
  isPlaying g = negb (Video.paused v) ->
  let r1 := fst (MotionReel.togglePlay o (MotionReel.mkCard s (Some v))) in
  let r2 := match reel_answer o v with
            | Some e => MotionReel.on e r1
            | None => r1
            end in
  let b1 := fst (GalleryB.togglePlay o (GalleryB.mkCard g src v true bar)) in
  let b2 := match answer o v with
            | Some e => GalleryB.on e b1
            | None => b1
            end in
  (exists v', MotionReel.videoRef r2 = Some v'
              /\ MotionReel.playing (MotionReel.ui r2) = negb (Video.paused v'))
  /\ isPlaying (GalleryB.ui b2) = negb (Video.paused (GalleryB.video b2)).
Proof.
  cbv zeta. unfold reel_answer, answer, MotionReel.togglePlay, GalleryB.togglePlay,
    GalleryB.videoRef.
  destruct s as [pl ms pr sd], g as [p gpr d ct mu sc ld [|]], v as [[|] vmu vct vd];
    cbn; intros Hs Hg; subst; destruct o; cbn; split;
    try (eexists; split; reflexivity); reflexivity.
Qed.

Lemma toggle_then_answer_keeps_flag_true_to_element_witness :
  isPlaying (GalleryB.ui
    (GalleryB.on Play
       (fst (GalleryB.togglePlay Fulfilled
               (GalleryB.mkCard gallery_initial "a.mp4" (Video.mk true false 0 10)
                  true None)))))
  = negb (Video.paused (GalleryB.video
       (GalleryB.on Play
          (fst (GalleryB.togglePlay Fulfilled
                  (GalleryB.mkCard gallery_initial "a.mp4" (Video.mk true false 0 10)
                     true None)))))).
Proof.
  apply (toggle_then_answer_keeps_flag_true_to_element Fulfilled MotionReel.initial
           gallery_initial (Video.mk true false 0 10) "a.mp4" None); reflexivity.
Defined.

(** ** Errors and loading over whole runs *)

Lemma galleryB_step_mounted (a : galleryB_action) (c : GalleryB.card) :
  GalleryB.videoMounted c = negb (hasError (GalleryB.ui c)) ->
  GalleryB.videoMounted (galleryB_step a c)
  = negb (hasError (GalleryB.ui (galleryB_step a c)))
  /\ (hasError (GalleryB.ui c) = true ->
      hasError (GalleryB.ui (galleryB_step a c)) = true).
Proof.
  destruct c as [[p pr d ct mu sc ld [|]] src [vp vmu vct vd] vm bar]; cbn; intros ->.
  all: destruct a as [[[o| |x| |]|[]]|]; cbn;
    unfold GalleryB.on, GalleryB.togglePlay, GalleryB.toggleMute,
      GalleryB.handleProgressClick, GalleryB.handleTimeUpdate, GalleryB.loadVideo,
      GalleryB.commit, GalleryB.videoRef, Video.set_currentTime; cbn;
    repeat match goal with
           | |- context [if ?x then _ else _] => destruct x; cbn
           | |- context [match ?b with Some _ => _ | None => _ end] => destruct b; cbn
           end; split; try reflexivity; try discriminate; auto.
Qed.

Lemma galleryA_step_mounted (a : interaction gallery_command gallery_event)
    (c : GalleryA.card) :
  GalleryA.desktopMounted c = negb (hasError (GalleryA.ui c)) ->
  GalleryA.desktopMounted (galleryA_step a c)
  = negb (hasError (GalleryA.ui (galleryA_step a c)))
  /\ GalleryA.mobileMounted (galleryA_step a c) = GalleryA.mobileMounted c
  /\ (hasError (GalleryA.ui c) = true ->
      hasError (GalleryA.ui (galleryA_step a c)) = true).
Proof.
  destruct c as [[p pr d ct mu sc ld [|]] [dp dmu dct dd] dm [mp mmu mct md] [|] bar];
    cbn; intros ->.
  all: destruct a as [[o| |x| |]|[]]; cbn;
    unfold GalleryA.on, GalleryA.togglePlay, GalleryA.toggleMute,
      GalleryA.handleProgressClick, GalleryA.handleTimeUpdate,
      GalleryA.commit, GalleryA.current, GalleryA.desktopVideoRef,
      GalleryA.mobileVideoRef, Video.set_currentTime; cbn;
    repeat match goal with
           | |- context [if ?x then _ else _] => destruct x; cbn
           | |- context [match ?b with Some _ => _ | None => _ end] => destruct b; cbn
           end; repeat split; try reflexivity; try discriminate; auto.
Qed.

(** X8.  On every run from its first render a gallery card has its desktop
    (or only) video mounted exactly while [hasError] is false, and the mobile
    video stays mounted; once the error event has come, the card shows the
    error affordance after any further run. *)
Theorem error_is_terminal
    (before after : list galleryB_action)
    (beforeA afterA : list (interaction gallery_command gallery_event))
    (src : string) (v : Video.t) (rect : DOMRect) :
  let b := run_all galleryB_step before (GalleryB.mounted src v rect) in
  let a := run_all galleryA_step beforeA (GalleryA.mounted v rect) in
  GalleryB.videoMounted b = negb (hasError (GalleryB.ui b))
  /\ GalleryA.desktopMounted a = negb (hasError (GalleryA.ui a))
  /\ GalleryA.mobileMounted a = true
  /\ GalleryB.shows (run_all galleryB_step after (GalleryB.on Error b)) = FailedToLoad
  /\ GalleryA.shows (run_all galleryA_step afterA (GalleryA.on Error a)) = FailedToLoad.
Proof.
  cbv zeta.
  assert (HB : forall l c, GalleryB.videoMounted c = negb (hasError (GalleryB.ui c)) ->
             GalleryB.videoMounted (run_all galleryB_step l c)
             = negb (hasError (GalleryB.ui (run_all galleryB_step l c)))
             /\ (hasError (GalleryB.ui c) = true ->
                 hasError (GalleryB.ui (run_all galleryB_step l c)) = true)).
  { unfold run_all. induction l as [|x l IH]; intros c Hc; cbn [fold_left]; [auto|].
    destruct (galleryB_step_mounted x c Hc) as [H1 H2].
    destruct (IH _ H1) as [H3 H4]. auto. }
  assert (HA : forall l c, GalleryA.desktopMounted c = negb (hasError (GalleryA.ui c)) ->
             GalleryA.desktopMounted (run_all galleryA_step l c)
             = negb (hasError (GalleryA.ui (run_all galleryA_step l c)))
             /\ GalleryA.mobileMounted (run_all galleryA_step l c)
                = GalleryA.mobileMounted c
             /\ (hasError (GalleryA.ui c) = true ->
                 hasError (GalleryA.ui (run_all galleryA_step l c)) = true)).
  { unfold run_all. induction l as [|x l IH]; intros c Hc; cbn [fold_left]; [auto|].
    destruct (galleryA_step_mounted x c Hc) as (H1 & H2 & H3).
    destruct (IH _ H1) as (H4 & H5 & H6). rewrite H5, H2. auto. }
  destruct (HB before (GalleryB.mounted src v rect) eq_refl) as [Hb _].
  destruct (HA beforeA (GalleryA.mounted v rect) eq_refl) as (Ha & Hm & _).
  repeat split; try assumption.
  - unfold GalleryB.shows.
    destruct (HB after (GalleryB.on Error
                (run_all galleryB_step before (GalleryB.mounted src v rect))))
      as [_ H].
    + destruct (run_all galleryB_step before _) as [[] ? ? ? ?]; reflexivity.
    + rewrite H; [reflexivity|].
      destruct (run_all galleryB_step before _) as [[] ? ? ? ?]; reflexivity.
  - unfold GalleryA.shows.
    destruct (HA afterA (GalleryA.on Error
                (run_all galleryA_step beforeA (GalleryA.mounted v rect))))
      as (_ & _ & H).
    + destruct (run_all galleryA_step beforeA _) as [[] ? ? ? ? ?]; reflexivity.
    + rewrite H; [reflexivity|].
      destruct (run_all galleryA_step beforeA _) as [[] ? ? ? ? ?]; reflexivity.
Qed.

(** X9.  The loading flag of the two-element gallery card, once false, stays
    false over any run; in the single-element card the load effect is the
    only step that can raise it again. *)
Theorem loading_flag_only_raised_by_reload
    (actions : list (interaction gallery_command gallery_event))
    (a : GalleryA.card) (x : galleryB_action) (b : GalleryB.card) :
  isLoading (GalleryA.ui a) = false ->
  isLoading (GalleryB.ui b) = false ->
  isLoading (GalleryA.ui (run_all galleryA_step actions a)) = false
  /\ (isLoading (GalleryB.ui (galleryB_step x b)) = false \/ x = Reload).
Proof.
  intros Ha Hb. split.
  - revert a Ha. unfold run_all.
    induction actions as [|y l IH]; intros a Ha; cbn [fold_left]; [exact Ha|].
    apply IH.
    destruct a as [[p pr d ct mu sc ld [|]] [dp dmu dct dd] [|] [mp mmu mct md] [|] bar];
      cbn in Ha; subst ld.
    all: destruct y as [[o| |z| |]|[]]; cbn;
      unfold GalleryA.on, GalleryA.togglePlay, GalleryA.toggleMute,
        GalleryA.handleProgressClick, GalleryA.handleTimeUpdate,
        GalleryA.commit, GalleryA.current, GalleryA.desktopVideoRef,
        GalleryA.mobileVideoRef, Video.set_currentTime; cbn;
      repeat match goal with
             | |- context [if ?x then _ else _] => destruct x; cbn
             | |- context [match ?b with Some _ => _ | None => _ end] => destruct b; cbn
             end; reflexivity.
  - destruct x as [y|]; [left|right; reflexivity].
    destruct b as [[p pr d ct mu sc ld [|]] src [vp vmu vct vd] [|] bar];
      cbn in Hb; subst ld.
    all: destruct y as [[o| |z| |]|[]]; cbn;
      unfold GalleryB.on, GalleryB.togglePlay, GalleryB.toggleMute,
        GalleryB.handleProgressClick, GalleryB.handleTimeUpdate,
        GalleryB.commit, GalleryB.videoRef, Video.set_currentTime; cbn;
      repeat match goal with
             | |- context [if ?x then _ else _] => destruct x; cbn
             | |- context [match ?b with Some _ => _ | None => _ end] => destruct b; cbn
             end; reflexivity.
Qed.

Lemma loading_flag_only_raised_by_reload_witness :
  isLoading (GalleryA.ui (run_all galleryA_step [Media Play; Gesture ToggleMute]
               (GalleryA.on CanPlay
                  (GalleryA.mounted (Video.mk true false 0 10) (mkRect 0 300)))))
  = false
  /\ (isLoading (GalleryB.ui (galleryB_step Reload
                   (GalleryB.on CanPlay
                      (GalleryB.mounted "a.mp4" (Video.mk true false 0 10)
                         (mkRect 0 300)))))
      = false
      \/ Reload = Reload).
Proof.
  apply (loading_flag_only_raised_by_reload [Media Play; Gesture ToggleMute]);
    reflexivity.
Defined.



(** X14.  A time update is idempotent in the reel card and the
    single-element gallery card; in the gallery cards it stores the element's
    current time, and [loadedmetadata] stores the element's duration. *)
Theorem time_update_mirrors_element
    (r : MotionReel.card) (b : GalleryB.card)
    (g : gallery_state) (src : string) (v m : Video.t) (mm : bool)
    (bar : option DOMRect) :
  MotionReel.on MotionReel.TimeUpdate (MotionReel.on MotionReel.TimeUpdate r)
  = MotionReel.on MotionReel.TimeUpdate r
  /\ GalleryB.on TimeUpdate (GalleryB.on TimeUpdate b) = GalleryB.on TimeUpdate b
  /\ currentTime (GalleryA.ui (GalleryA.on TimeUpdate
                                 (GalleryA.mkCard g v true m mm bar)))
     = Video.currentTime v
  /\ currentTime (GalleryB.ui (GalleryB.on TimeUpdate
                                 (GalleryB.mkCard g src v true bar)))
     = Video.currentTime v
  /\ duration (GalleryA.ui (GalleryA.on LoadedMetadata
                              (GalleryA.mkCard g v true m mm bar)))
     = Video.duration v
  /\ duration (GalleryB.ui (GalleryB.on LoadedMetadata
                              (GalleryB.mkCard g src v true bar)))
     = Video.duration v.
Proof.
  destruct r as [s [rv|]],
    b as [[p' pr' d' ct' mu' sc' ld' [|]] src' vb [|] bb],
    g as [gp gpr gd gct gmu gsc gld [|]];
    repeat split; reflexivity.
Qed.

(** ** The click fraction *)

Lemma ltb_flip (x y : float) : (x <? y) = true -> (y <? x) = false.
Proof.
  rewrite !ltb_spec. unfold SFltb.
  rewrite (SFcompare_antisym (Prim2SF x) (Prim2SF y)).
  destruct (SFcompare (Prim2SF x) (Prim2SF y)) as [[| |]|]; cbn; congruence.
Qed.

Lemma ltb_not_nan (x y : float) : (x <? y) = true -> is_nan x = false /\ is_nan y = false.
Proof.
  rewrite !is_nan_Prim2SF, ltb_spec. unfold SFltb.
  destruct (Prim2SF x) as [s|s| |s m e], (Prim2SF y) as [s'|s'| |s' m' e'];
    cbn [SFcompare]; try discriminate; intros _; split; reflexivity.
Qed.

Lemma leb_not_nan (x y : float) : (x <=? y) = true -> is_nan x = false /\ is_nan y = false.
Proof.
  rewrite !is_nan_Prim2SF, leb_spec. unfold SFleb.
  destruct (Prim2SF x) as [s|s| |s m e], (Prim2SF y) as [s'|s'| |s' m' e'];
    cbn [SFcompare]; try discriminate; intros _; split; reflexivity.
Qed.

(** A number that is at most zero is below one. *)
Lemma leb_zero_ltb_one (q : float) : (q <=? 0) = true -> (q <? 1) = true.
Proof.
  rewrite leb_spec, ltb_spec. unfold SFleb, SFltb.
  change (Prim2SF 0) with (S754_zero false).
  change (Prim2SF 1) with (S754_finite false 4503599627370496 (-52)).
  destruct (Prim2SF q) as [s|s| |s m e]; try destruct s; cbn [SFcompare];
    try discriminate; reflexivity.
Qed.

(** A number that is neither below nor above one is one. *)
Lemma compare_one_eq (q : float) :
  (1 <=? q) = true -> (1 <? q) = false -> q = 1.
Proof.
  rewrite leb_spec, ltb_spec. unfold SFleb, SFltb.
  change (Prim2SF 1) with (S754_finite false 4503599627370496 (-52)).
  intros H1 H2.
  assert (E : Prim2SF q = S754_finite false 4503599627370496 (-52)).
  { destruct (Prim2SF q) as [s|s| |s m e]; try destruct s; try discriminate.
    unfold SFcompare in H1, H2. rewrite Pos.compare_cont_spec in H1, H2.
    destruct (Z.compare_spec (-52) e) as [He|He|He]; try discriminate.
    destruct (Pos.compare_spec 4503599627370496 m) as [Hm|Hm|Hm]; try discriminate.
    subst. reflexivity. }
  rewrite <- (SF2Prim_Prim2SF q), E. reflexivity.
Qed.

Lemma Math_min_one (q : float) :
  JS.Math_min 1 q = (if is_nan q then nan else if 1 <? q then 1 else q).
Proof.
  unfold JS.Math_min. change (is_nan 1) with false. change (get_sign 1) with false.
  cbn [orb]. destruct (is_nan q), (1 <? q), (q <? 1); reflexivity.
Qed.

Lemma Math_max_zero (m : float) :
  JS.Math_max 0 m = (if is_nan m then nan else if 0 <? m then m else 0).
Proof.
  unfold JS.Math_max. change (is_nan 0) with false. change (get_sign 0) with false.
  cbn [orb]. destruct (is_nan m); [reflexivity|].
  destruct (m <? 0) eqn:H1, (0 <? m) eqn:H2; try reflexivity.
  rewrite (ltb_flip _ _ H1) in H2. discriminate.
Qed.

(** A fraction that is [NaN] stays [NaN] through the clamp. *)
Lemma click_position_nan (clientX : float) (rect : DOMRect) :
  is_nan ((clientX - left rect) / width rect) = true ->
  click_position clientX rect = nan.
Proof.
  intros Hn. unfold click_position. rewrite Math_min_one, Hn. reflexivity.
Qed.

(** X6.  The clamp of a click saturates: a raw fraction of at most 0 gives
    exactly 0, one of at least 1 gives exactly 1, one in between is used as
    it is, and [NaN] stays [NaN]. *)
Theorem click_position_saturates (clientX : float) (rect : DOMRect) :
  let q := (clientX - left rect) / width rect in
  ((q <=? 0) = true -> click_position clientX rect = 0)
  /\ ((1 <=? q) = true -> click_position clientX rect = 1)
  /\ ((0 <? q) = true -> (q <=? 1) = true -> click_position clientX rect = q)
  /\ (is_nan q = true -> click_position clientX rect = nan).
Proof.
  cbv zeta. unfold click_position.
  set (q := (clientX - left rect) / width rect).
  rewrite Math_min_one. repeat split.
  - intros H. destruct (leb_not_nan _ _ H) as [Hn _]. rewrite Hn.
    rewrite (ltb_flip _ _ (leb_zero_ltb_one q H)).
    rewrite Math_max_zero, Hn.
    destruct (0 <? q) eqn:H0; [|reflexivity].
    exfalso. revert H H0. rewrite leb_spec, ltb_spec. unfold SFleb, SFltb.
    rewrite (SFcompare_antisym (Prim2SF q) (Prim2SF 0)).
    destruct (SFcompare (Prim2SF q) (Prim2SF 0)) as [[| |]|]; cbn; congruence.
  - intros H. destruct (leb_not_nan _ _ H) as [_ Hn]. rewrite Hn.
    destruct (1 <? q) eqn:H1; [reflexivity|].
    rewrite (compare_one_eq q H H1). reflexivity.
  - intros H0 H1. destruct (ltb_not_nan _ _ H0) as [_ Hn]. rewrite Hn.
    assert (Hlt : (1 <? q) = false).
    { revert H1. rewrite leb_spec, ltb_spec. unfold SFleb, SFltb.
      rewrite (SFcompare_antisym (Prim2SF q) (Prim2SF 1)).
      destruct (SFcompare (Prim2SF q) (Prim2SF 1)) as [[| |]|]; cbn; congruence. }
    rewrite Hlt, Math_max_zero, Hn, H0. reflexivity.
  - intros Hn. rewrite Hn. reflexivity.
Qed.

Lemma click_position_saturates_witness :
  click_position 450 (mkRect 100 300) = 1.
Proof. apply (click_position_saturates 450 (mkRect 100 300)). reflexivity. Defined.

(** ** Seeks that cannot be made *)

Lemma is_nan_mul_l (x d : float) : is_nan x = true -> is_nan (x * d) = true.
Proof.
  rewrite !is_nan_Prim2SF, mul_spec.
  destruct (Prim2SF x) as [s|s| |s m e]; try discriminate; intros _. reflexivity.
Qed.

(** X7.  A seek that starts from [NaN] cannot be made: [handleSeek] with a
    value of [NaN], and a click whose raw fraction is [NaN] (a bar of width 0
    clicked at its left edge), assign [NaN], the assignment throws, and the
    card is left as it was. *)
Theorem seek_of_NaN_throws
    (value clientX : float) (rect : DOMRect)
    (s : MotionReel.state) (g : gallery_state) (v m : Video.t) (src : string)
    (mm : bool) :
  let r := MotionReel.mkCard s (Some v) in
  let a := GalleryA.mkCard g v true m mm (Some rect) in
  let b := GalleryB.mkCard g src v true (Some rect) in
  (is_nan value = true ->
   MotionReel.handleSeek value r = (r, [video_set_currentTime nan; uncaught_TypeError]))
  /\ (is_nan ((clientX - left rect) / width rect) = true ->
      GalleryA.handleProgressClick clientX a
      = (a, [video_set_currentTime nan; uncaught_TypeError])
      /\ GalleryB.handleProgressClick clientX b
         = (b, [video_set_currentTime nan; uncaught_TypeError])).
Proof.
  cbv zeta. split.
  - intros Hn. unfold MotionReel.handleSeek, Video.set_currentTime.
    cbn [MotionReel.videoRef].
    rewrite (is_nan_eq _ (is_nan_mul_l value (Video.duration v) Hn)). reflexivity.
  - intros Hn.
    pose proof (click_position_nan clientX rect Hn) as H.
    unfold GalleryA.handleProgressClick, GalleryB.handleProgressClick,
      GalleryA.current, GalleryA.desktopVideoRef, GalleryB.videoRef,
      Video.set_currentTime.
    cbn [GalleryA.progressRef GalleryA.desktopMounted GalleryA.desktop
         GalleryB.progressRef GalleryB.videoMounted GalleryB.video].
    rewrite H.
    rewrite (is_nan_eq _ (is_nan_mul_l nan (Video.duration v) eq_refl)).
    split; reflexivity.
Qed.

Lemma seek_of_NaN_throws_witness :
  GalleryB.handleProgressClick 100
    (GalleryB.mkCard gallery_initial "a.mp4" (Video.mk true false 0 10) true
       (Some (mkRect 100 0)))
  = (GalleryB.mkCard gallery_initial "a.mp4" (Video.mk true false 0 10) true
       (Some (mkRect 100 0)),
     [video_set_currentTime nan; uncaught_TypeError]).
Proof.
  apply (seek_of_NaN_throws 0 100 (mkRect 100 0) MotionReel.initial gallery_initial
           (Video.mk true false 0 10) (Video.mk true false 0 10) "a.mp4" true).
  reflexivity.
Defined.


(** ** Sections and keys *)

Lemma GalleryB_keyed_lookup (rs : list Reel) : forall i j,
  GalleryB.keyed i rs !! j = (fun r => ((i + j)%nat, r)) <$> rs !! j.
Proof.
  induction rs as [|r rs IH]; intros i [|j]; cbn; try reflexivity.
  - rewrite Nat.add_0_r. reflexivity.
  - rewrite IH. replace (S i + j)%nat with (i + S j)%nat by lia. reflexivity.
Qed.

Lemma GalleryA_keyed_lookup (rs : list Reel) : forall i j,
  GalleryA.keyed i rs !! j = (fun r => (card_key r (i + j), r)) <$> rs !! j.
Proof.
  induction rs as [|r rs IH]; intros i [|j]; cbn; try reflexivity.
  - rewrite Nat.add_0_r. reflexivity.
  - rewrite IH. replace (S i + j)%nat with (i + S j)%nat by lia. reflexivity.
Qed.

Lemma MotionReel_keyed_lookup (rs : list Reel) : forall i j,
  MotionReel.keyed i rs !! j = (fun r => (card_key r (i + j), r)) <$> rs !! j.
Proof.
  induction rs as [|r rs IH]; intros i [|j]; cbn; try reflexivity.
  - rewrite Nat.add_0_r. reflexivity.
  - rewrite IH. replace (S i + j)%nat with (i + S j)%nat by lia. reflexivity.
Qed.

(** X10.  A gallery section renders the empty-state message exactly when
    the normalised list is empty; otherwise card [j] is item [j] of the list,
    keyed by name and index (two-element version) or by index alone. *)
Theorem gallery_empty_state_iff (data : Data) (j : nat) :
  match GalleryA.render data with
  | NoVideos => normalize data = []
  | Gallery cards =>
      normalize data <> []
      /\ cards !! j = (fun r => (card_key r j, r)) <$> normalize data !! j
  end
  /\ match GalleryB.render data with
     | NoVideos => normalize data = []
     | Gallery cards =>
         normalize data <> []
         /\ cards !! j = (fun r => (j, r)) <$> normalize data !! j
     end.
Proof.
  unfold GalleryA.render, GalleryB.render.
  replace (normalize' data) with (normalize data) by (destruct data; reflexivity).
  destruct (normalize data) as [|r rs]; cbn [length Nat.eqb]; [split; reflexivity|].
  split; (split; [discriminate|]).
  - apply (GalleryA_keyed_lookup (r :: rs) 0 j).
  - apply (GalleryB_keyed_lookup (r :: rs) 0 j).
Qed.




Section DecimalDigits.

Local Open Scope Z_scope.

Lemma digit_value (d : Z) : 0 <= d < 10 -> Z.of_nat (nat_of_ascii (JS.digit d)) - 48 = d.
Proof.
  intros H. unfold JS.digit. rewrite nat_ascii_embedding by lia. lia.
Qed.

(** Reading the digits that [digits_fuel] writes gives the number back. *)
Lemma digits_fuel_value (fuel : nat) : forall n acc,
  0 <= n < 2 ^ Z.of_nat fuel ->
  fst (digits_value (JS.digits_fuel fuel n acc))
  = n * snd (digits_value acc) + fst (digits_value acc).
Proof.
  induction fuel as [|fuel IH]; intros n acc Hn.
  - cbn in Hn. assert (n = 0) by lia. subst n. cbn. lia.
  - cbn [JS.digits_fuel]. cbv zeta.
    pose proof (Z.mod_pos_bound n 10 ltac:(lia)) as Hm.
    pose proof (Z.div_mod n 10 ltac:(lia)) as Hd.
    assert (Hv : digits_value (String (JS.digit (n mod 10)) acc)
                 = ((n mod 10) * snd (digits_value acc) + fst (digits_value acc),
                    10 * snd (digits_value acc))).
    { cbn [digits_value]. destruct (digits_value acc) as [v p]. cbn [fst snd].
      rewrite digit_value by lia. reflexivity. }
    destruct (n <? 10) eqn:Hlt.
    + apply Z.ltb_lt in Hlt. rewrite Hv. cbn [fst].
      rewrite Z.mod_small by lia. reflexivity.
    + apply Z.ltb_ge in Hlt. rewrite IH, Hv; cbn [fst snd]; [nia|].
      rewrite Nat2Z.inj_succ, Z.pow_succ_r in Hn by lia.
      split; [apply Z.div_pos; lia|].
      apply Z.div_lt_upper_bound; lia.
Qed.

Lemma decimal_value (n : Z) : 0 <= n -> fst (digits_value (JS.decimal n)) = n.
Proof.
  intros Hn. unfold JS.decimal. rewrite digits_fuel_value; [cbn; lia|].
  split; [exact Hn|].
  rewrite Nat2Z.inj_succ, Z2Nat.id by apply Z.log2_nonneg.
  destruct (Z.eq_dec n 0) as [->|Hne]; [reflexivity|].
  apply Z.log2_spec. lia.
Qed.

End DecimalDigits.

Lemma append_inj_l (s a b : string) : (s ++ a)%string = (s ++ b)%string -> a = b.
Proof. induction s as [|c s IH]; cbn; intros H; [exact H|]. injection H. exact IH. Qed.

Lemma card_key_index (r r' : Reel) (i j : nat) :
  key_name r = key_name r' -> card_key r i = card_key r' j -> i = j.
Proof.
  unfold card_key. fold (key_name r) (key_name r'). intros -> H.
  apply append_inj_l in H.
  apply (f_equal (fun s => fst (digits_value s))) in H.
  rewrite !decimal_value in H by lia. lia.
Qed.

(** X11.  Two cards whose reels have the same name ([id], or [title] when
    there is no [id]) get the same key only at the same index: the index
    tells duplicates apart. *)
Theorem same_name_distinct_keys (r r' : Reel) (i j : nat) :
  key_name r = key_name r' ->
  String.eqb (card_key r i) (card_key r' j) = Nat.eqb i j.
Proof.
  intros Hn. destruct (Nat.eqb_spec i j) as [->|Hne].
  - apply String.eqb_eq. unfold card_key. fold (key_name r) (key_name r').
    rewrite Hn. reflexivity.
  - apply String.eqb_neq. intros H. apply Hne, (card_key_index r r' i j Hn H).
Qed.

Lemma same_name_distinct_keys_witness :
  String.eqb (card_key (mkReel None "Showreel"%string "a.mp4"%string None) 3)
             (card_key (mkReel (Some ""%string) "Showreel"%string "b.mp4"%string None) 12)
  = false.
Proof. apply (same_name_distinct_keys _ _ 3 12). reflexivity. Defined.

Lemma decimal_one_digit (i : nat) :
  (i < 10)%nat -> JS.decimal (Z.of_nat i) = String (JS.digit (Z.of_nat i)) EmptyString.
Proof.
  intros H. do 10 (destruct i as [|i]; [reflexivity|]). lia.
Qed.

Lemma digit_inj (i j : nat) :
  (i < 10)%nat -> (j < 10)%nat ->
  JS.digit (Z.of_nat i) = JS.digit (Z.of_nat j) -> i = j.
Proof.
  intros Hi Hj H. apply (f_equal nat_of_ascii) in H. unfold JS.digit in H.
  rewrite !nat_ascii_embedding in H by lia. lia.
Qed.

Lemma append_last_char (s s' : string) (c c' : ascii) :
  (s ++ String c EmptyString)%string = (s' ++ String c' EmptyString)%string -> c = c'.
Proof.
  revert s'. induction s as [|x s IH]; intros [|x' s']; cbn; intros H.
  - congruence.
  - injection H as _ H. destruct s'; discriminate.
  - injection H as _ H. destruct s; discriminate.
  - injection H as _ H. apply (IH _ H).
Qed.

Lemma card_key_one_digit (r r' : Reel) (i j : nat) :
  (i < 10)%nat -> (j < 10)%nat -> card_key r i = card_key r' j -> i = j.
Proof.
  intros Hi Hj. unfold card_key.
  rewrite !decimal_one_digit by assumption. intros H.
  apply append_last_char in H. apply (digit_inj i j Hi Hj H).
Qed.

(** X12.  The keys of the cards of a row of at most ten reels are pairwise
    distinct, whatever the reels' names (the rows of the reel section hold at
    most three); the keys of the single-element gallery, the indices, always
    are. *)
Theorem row_keys_are_distinct (row rs : list Reel) :
  (length row <= 10)%nat ->
  NoDup (MotionReel.keyed 0 row).*1 /\ NoDup (GalleryB.keyed 0 rs).*1.
Proof.
  intros Hlen. split; apply NoDup_alt; intros i j k;
    rewrite !list_lookup_fmap.
  - rewrite !MotionReel_keyed_lookup. cbn [Nat.add].
    destruct (row !! i) as [r|] eqn:Ei; [|discriminate].
    destruct (row !! j) as [r'|] eqn:Ej; [|discriminate].
    cbn. intros [= <-] [= H].
    apply lookup_lt_Some in Ei, Ej.
    symmetry. apply (card_key_one_digit r' r j i); [lia|lia|exact H].
  - rewrite !GalleryB_keyed_lookup. cbn [Nat.add].
    destruct (rs !! i) as [r|]; [|discriminate].
    destruct (rs !! j) as [r'|]; [|discriminate].
    cbn. intros [= <-] [= H]. symmetry. exact H.
Qed.

Lemma row_keys_are_distinct_witness :
  NoDup (MotionReel.keyed 0 [mkReel None "a"%string "a.mp4"%string None;
                             mkReel None "a"%string "a.mp4"%string None]).*1
  /\ NoDup (GalleryB.keyed 0 []).*1.
Proof. apply row_keys_are_distinct. cbn. lia. Defined.

(** ** Time format between whole seconds *)

Lemma formatTime_fractions_checked :
  forallb (fun k =>
             String.eqb (formatTime (JS.of_Z (Z.of_nat k) + 0.5)) (M_SS (Z.of_nat k))
             && String.eqb (formatTime (JS.of_Z (Z.of_nat k) + 0.96875))
                           (M_SS (Z.of_nat k)))
          (seq 0 (Z.to_nat 6000)) = true.
Proof. vm_compute. reflexivity. Qed.

(** X13.  [formatTime] ignores the fraction of a second: half a second and
    31/32 of a second past each whole second below 100 minutes it renders
    the whole second. *)
Theorem formatTime_ignores_fraction (n : Z) :
  (0 <= n < 6000)%Z ->
  formatTime (JS.of_Z n + 0.5) = M_SS n
  /\ formatTime (JS.of_Z n + 0.96875) = M_SS n.
Proof.
  intros Hn. pose proof formatTime_fractions_checked as H.
  rewrite forallb_forall in H. specialize (H (Z.to_nat n)).
  rewrite Z2Nat.id in H by lia.
  assert (Hin : In (Z.to_nat n) (seq 0 (Z.to_nat 6000))) by (apply in_seq; lia).
  apply H, andb_prop in Hin as [H1 H2].
  split; apply String.eqb_eq; assumption.
Qed.

Lemma formatTime_ignores_fraction_witness :
  formatTime (JS.of_Z 65 + 0.5) = M_SS 65
  /\ formatTime (JS.of_Z 65 + 0.96875) = M_SS 65.
Proof. apply (formatTime_ignores_fraction 65). lia. Defined.
